(** * Verification of the ai-toolbox profile store, apply engine,
      config mergers and central-repository path resolution.

    Sources embedded here:
    - src/tauri/src/coding/codex/commands.rs       (profile store, apply, import)
    - src/tauri/src/coding/skills/central_repo.rs  (path conversion)
    - src/tauri/src/coding/oh_my_opencode/adapter.rs (JSON deep merge, cleaning)

    A Rust [str] is modelled as its UTF-8 bytes (a Stdlib [string]).
    External crates (serde_json text parsing/printing, the toml crate) are
    kept abstract as section variables; the document store is modelled as a
    finite map from record key to record, and every store query, file-system
    call and their outcomes are explicit. *)

From Stdlib Require Import ZArith Ascii String List Sorting.Sorted Sorting.Permutation.
From stdpp Require Import base gmap strings list fin_maps.
Import ListNotations.

Open Scope string_scope.
Set Warnings "-register-all".

(* ------------------------------------------------------------------ *)
(** ** Rust's [Result<T, String>] *)

Inductive result (A : Type) : Type :=
| Ok (a : A)
| Err (e : string).
Arguments Ok {A} a.
Arguments Err {A} e.

(* ------------------------------------------------------------------ *)
(** ** serde_json::Value *)

(** Objects are kept as association lists in map order; numbers as [Z]. *)
Inductive Json : Type :=
| JNull
| JBool (b : bool)
| JNumber (n : Z)
| JString (s : string)
| JArray (l : list Json)
| JObject (m : list (string * Json)).

Definition json_is_object (v : Json) : bool :=
  match v with JObject _ => true | _ => false end.

Definition json_is_null (v : Json) : bool :=
  match v with JNull => true | _ => false end.

(** [Value::get] on an object: the entry of that key. *)
Fixpoint assoc_get (k : string) (m : list (string * Json)) : option Json :=
  match m with
  | [] => None
  | (k', v) :: m' => if String.eqb k k' then Some v else assoc_get k m'
  end.

(** Overwrite the value stored under an existing key ([*base_value = ...]). *)
Fixpoint assoc_set (k : string) (v : Json) (m : list (string * Json))
  : list (string * Json) :=
  match m with
  | [] => []
  | (k', v') :: m' =>
      if String.eqb k k' then (k', v) :: m' else (k', v') :: assoc_set k v m'
  end.

(* ------------------------------------------------------------------ *)
(** ** Codex provider records (CodexProviderContent / CodexProvider) *)

Record Provider : Type := mkProvider {
  provider_id : string;
  name : string;
  category : string;
  settings_config : string;
  source_provider_id : option string;
  website_url : option string;
  notes : option string;
  icon : option string;
  icon_color : option string;
  sort_index : option Z;
  is_applied : bool;
  created_at : string;
  updated_at : string
}.

(** [UPDATE codex_provider SET is_applied = b, updated_at = now]
    applied to one record. *)
Definition set_applied (b : bool) (now : string) (p : Provider) : Provider :=
  {| provider_id := provider_id p; name := name p; category := category p;
     settings_config := settings_config p;
     source_provider_id := source_provider_id p; website_url := website_url p;
     notes := notes p; icon := icon p; icon_color := icon_color p;
     sort_index := sort_index p; is_applied := b;
     created_at := created_at p; updated_at := now |}.

(** Store: the [codex_provider] table, keyed by record id.
    Modelled from the spec: the codex adapter ([to_db_value_provider] /
    [from_db_value_provider]) is not among the sources; rows are kept in
    decoded form, since the spec's current-key-first decoding reads back
    what the current encoder wrote. *)
Abbreviation Table := (gmap string Provider).

(* ------------------------------------------------------------------ *)
(** ** Outcomes of external calls *)

(** The store queries issued by the commands. *)
Inductive DbCall : Type :=
| QSelectAll            (* SELECT * OMIT id FROM codex_provider *)
| QSelectById           (* ... WHERE provider_id = $id LIMIT 1 *)
| QCreate               (* CREATE codex_provider:`id` CONTENT $data *)
| QDelete               (* DELETE codex_provider:`id` *)
| QResetApplied         (* UPDATE ... SET is_applied = false *)
| QSetApplied           (* UPDATE ... SET is_applied = true WHERE ... *)
| QSelectCommon         (* SELECT ... FROM codex_common_config:`common` *)
| QCount                (* SELECT count() FROM codex_provider GROUP ALL *)
| QSetSortIndex (index : nat)
                        (* UPDATE ... SET sort_index = $index, ...
                           WHERE provider_id = $id *)
| QDeleteCommon         (* DELETE codex_common_config:`common` *)
| QCreateCommon         (* CREATE codex_common_config:`common` CONTENT $data *)
| QSelectApplied.       (* SELECT * OMIT id FROM codex_provider
                           WHERE is_applied = true LIMIT 1 *)

(** A query either fails as a whole ([.await] error), or runs; a result set
    that is taken with [.take(0)] may then fail to deserialize. *)
Inductive QOutcome : Type :=
| QOk
| QDecodeErr (msg : string)
| QErr (msg : string).

(** The file-system calls. *)
Inductive FsCall : Type :=
| FCreateDir
| FWriteAuth
| FWriteConfig
| FReadAuth
| FReadConfig.

Inductive Event : Type :=
| EvDb (c : DbCall)
| EvFs (c : FsCall).

(** Per-call environment: outcomes of the external calls, the home
    directory variable and the clock. *)
Record Env : Type := mkEnv {
  env_db : DbCall -> QOutcome;
  env_fs_fail : FsCall -> option string;
  env_home : option string;
  env_now : string
}.

(** The state the commands act on. [w_common] is the [config] string of the
    [codex_common_config:`common`] record, if that record exists;
    [w_files] maps file paths to contents; [w_trace] records the external
    calls in the order they are issued. *)
Record World : Type := mkWorld {
  w_store : Table;
  w_common : option string;
  w_dir : bool;
  w_files : gmap string string;
  w_trace : list Event
}.

(* ------------------------------------------------------------------ *)
(** ** A reader/state/error monad *)

Definition M (A : Type) : Type := Env -> World -> result A * World.

Definition ret {A} (a : A) : M A := fun _ w => (Ok a, w).
Definition fail {A} (e : string) : M A := fun _ w => (Err e, w).
Definition bind {A B} (m : M A) (k : A -> M B) : M B :=
  fun env w =>
    match m env w with
    | (Ok a, w') => k a env w'
    | (Err e, w') => (Err e, w')
    end.

Notation "x <-- m ;; k" := (bind m (fun x => k))
  (at level 100, m at next level, right associativity).
Notation "m ;;; k" := (bind m (fun _ => k))
  (at level 100, right associativity).

Definition get_env : M Env := fun env w => (Ok env, w).
Definition get_world : M World := fun _ w => (Ok w, w).
Definition modify (f : World -> World) : M unit := fun _ w => (Ok tt, f w).

Definition log (e : Event) : M unit :=
  modify (fun w => {| w_store := w_store w; w_common := w_common w;
                      w_dir := w_dir w; w_files := w_files w;
                      w_trace := w_trace w ++ [e] |}).

Definition set_store (t : Table) : M unit :=
  modify (fun w => {| w_store := t; w_common := w_common w;
                      w_dir := w_dir w; w_files := w_files w;
                      w_trace := w_trace w |}).

Definition now : M string := env <-- get_env ;; ret (env_now env).

(** [db.query(..).await.map_err(|e| format!("{prefix}: {}", e))?]: issue the
    query, fail on a transport error, otherwise return the outcome. *)
Definition db_call (c : DbCall) (prefix : string) : M QOutcome :=
  log (EvDb c) ;;;
  env <-- get_env ;;
  match env_db env c with
  | QErr msg => fail (prefix ++ ": " ++ msg)
  | o => ret o
  end.

(** The same followed by [.take(0)]: [Err] when the rows do not decode. *)
Definition db_take {A} (c : DbCall) (prefix : string) (rows : World -> A)
  : M (result A) :=
  o <-- db_call c prefix ;;
  match o with
  | QDecodeErr msg => ret (Err msg)
  | _ => w <-- get_world ;; ret (Ok (rows w))
  end.

(** The rows with [provider_id = id] (at most one: LIMIT 1). *)
Definition rows_by_id (id : string) (t : Table) : list Provider :=
  take 1 (filter (fun p => provider_id p = id) (map snd (map_to_list t))).

(** [CREATE codex_provider:`key` CONTENT $data]. Creating a key that exists
    is a statement error: the row is not written and the error stays inside
    the query response, which the code does not inspect. *)
Definition db_create (key : string) (p : Provider) (prefix : string) : M unit :=
  db_call QCreate prefix ;;;
  w <-- get_world ;;
  match w_store w !! key with
  | Some _ => ret tt
  | None => set_store (<[key := p]> (w_store w))
  end.

(** [DELETE codex_provider:`key`]. *)
Definition db_delete (key : string) (prefix : string) : M unit :=
  db_call QDelete prefix ;;;
  w <-- get_world ;;
  set_store (delete key (w_store w)).

(** [UPDATE codex_provider SET is_applied = false, updated_at = $now]. *)
Definition db_reset_applied (ts : string) (prefix : string) : M unit :=
  db_call QResetApplied prefix ;;;
  w <-- get_world ;;
  set_store (set_applied false ts <$> w_store w).

(** [UPDATE codex_provider SET is_applied = true, updated_at = $now
     WHERE provider_id = $id]. *)
Definition db_set_applied (id ts : string) (prefix : string) : M unit :=
  db_call QSetApplied prefix ;;;
  w <-- get_world ;;
  set_store ((fun p => if decide (provider_id p = id)
                       then set_applied true ts p else p) <$> w_store w).

(** A secondary side effect whose failure is logged and dropped
    ([if let Err(e) = ... { eprintln!(..) }]). *)
Definition ignore_err (m : M unit) : M unit :=
  fun env w => let '(_, w') := m env w in (Ok tt, w').

Definition lift {A} (r : result A) : M A :=
  match r with Ok a => ret a | Err e => fail e end.

(* ------------------------------------------------------------------ *)
(** ** File system *)

Definition set_files (dir : bool) (fs : gmap string string) : M unit :=
  modify (fun w => {| w_store := w_store w; w_common := w_common w;
                      w_dir := dir; w_files := fs; w_trace := w_trace w |}).

(** [Path::new(base).join(name)] for a relative [name] (non-Windows):
    [PathBuf::push] adds a separator unless [base] is empty or already
    ends with one. *)
Definition path_join (base name : string) : string :=
  match rev (list_ascii_of_string base) with
  | [] => name
  | c :: _ => if Ascii.eqb c "/" then base ++ name else base ++ "/" ++ name
  end.

(** [get_codex_config_dir]: [$USERPROFILE] or [$HOME], joined with [.codex]. *)
Definition get_codex_config_dir : M string :=
  env <-- get_env ;;
  match env_home env with
  | Some home => ret (path_join home ".codex")
  | None => fail "Failed to get home directory"
  end.

Definition fs_create_dir (prefix : string) : M unit :=
  log (EvFs FCreateDir) ;;;
  env <-- get_env ;;
  match env_fs_fail env FCreateDir with
  | Some e => fail (prefix ++ ": " ++ e)
  | None => w <-- get_world ;; set_files true (w_files w)
  end.

Definition fs_write (c : FsCall) (path contents prefix : string) : M unit :=
  log (EvFs c) ;;;
  env <-- get_env ;;
  match env_fs_fail env c with
  | Some e => fail (prefix ++ ": " ++ e)
  | None => w <-- get_world ;; set_files (w_dir w) (<[path := contents]> (w_files w))
  end.

(** [fs::read_to_string] of an existing file. *)
Definition fs_read (c : FsCall) (path : string) : M (result string) :=
  log (EvFs c) ;;;
  env <-- get_env ;;
  match env_fs_fail env c with
  | Some e => ret (Err e)
  | None => w <-- get_world ;;
            ret (match w_files w !! path with Some s => Ok s | None => Err "not found" end)
  end.

Definition file_exists (path : string) : M bool :=
  w <-- get_world ;; ret (bool_decide (is_Some (w_files w !! path))).

(* ------------------------------------------------------------------ *)
(** ** [str::trim] and [str::trim().is_empty()]

    A Rust [str] is modelled as its UTF-8 bytes (a Stdlib [string]).
    [str::trim] removes the characters with [char::is_whitespace] (Unicode
    White_Space) at both ends: the ASCII blanks U+0009..U+000D and U+0020
    (one byte), U+0085 and U+00A0 (two bytes [C2 85], [C2 A0]), U+1680,
    U+2000..U+200A, U+2028, U+2029, U+202F, U+205F and U+3000 (three bytes). *)

Definition is_ws (c : ascii) : bool :=
  match nat_of_ascii c with
  | 9 | 10 | 11 | 12 | 13 | 32 => true
  | _ => false
  end.

(** The two-byte white-space characters U+0085 and U+00A0. *)
Definition is_ws2 (a b : ascii) : bool :=
  Nat.eqb (nat_of_ascii a) 194 &&
  (Nat.eqb (nat_of_ascii b) 133 || Nat.eqb (nat_of_ascii b) 160).

(** The three-byte white-space characters. *)
Definition is_ws3 (a b c : ascii) : bool :=
  let x := nat_of_ascii a in
  let y := nat_of_ascii b in
  let z := nat_of_ascii c in
  (Nat.eqb x 225 && Nat.eqb y 154 && Nat.eqb z 128)                 (* U+1680 *)
  || (Nat.eqb x 226 &&
      ((Nat.eqb y 128 &&
        ((Nat.leb 128 z && Nat.leb z 138)                           (* U+2000..U+200A *)
         || Nat.eqb z 168 || Nat.eqb z 169 || Nat.eqb z 175))       (* U+2028, U+2029, U+202F *)
       || (Nat.eqb y 129 && Nat.eqb z 159)))                        (* U+205F *)
  || (Nat.eqb x 227 && Nat.eqb y 128 && Nat.eqb z 128).             (* U+3000 *)

(** [trim_start]: drop white-space characters from the front. *)
Fixpoint trim_start_bytes (l : list ascii) : list ascii :=
  match l with
  | [] => []
  | a :: r =>
      if is_ws a then trim_start_bytes r
      else match r with
           | [] => l
           | b :: r2 =>
               if is_ws2 a b then trim_start_bytes r2
               else match r2 with
                    | [] => l
                    | c :: r3 => if is_ws3 a b c then trim_start_bytes r3 else l
                    end
           end
  end.

(** [trim_end] on the reversed bytes: the last character is decoded from
    its last byte backwards. *)
Fixpoint trim_end_rev (l : list ascii) : list ascii :=
  match l with
  | [] => []
  | a :: r =>
      if is_ws a then trim_end_rev r
      else match r with
           | [] => l
           | b :: r2 =>
               if is_ws2 b a then trim_end_rev r2
               else match r2 with
                    | [] => l
                    | c :: r3 => if is_ws3 c b a then trim_end_rev r3 else l
                    end
           end
  end.

(** [s.trim()] *)
Definition str_trim (s : string) : string :=
  string_of_list_ascii
    (rev (trim_end_rev (rev (trim_start_bytes (list_ascii_of_string s))))).

(** [s.trim().is_empty()] *)
Definition is_blank (s : string) : bool := String.eqb (str_trim s) "".

(** Bytes that are a sequence of white-space characters. *)
Inductive ws_seq : list ascii -> Prop :=
| ws_nil : ws_seq []
| ws_one a l : is_ws a = true -> ws_seq l -> ws_seq (a :: l)
| ws_two a b l : is_ws2 a b = true -> ws_seq l -> ws_seq (a :: b :: l)
| ws_three a b c l : is_ws3 a b c = true -> ws_seq l -> ws_seq (a :: b :: c :: l).

(** [Value::get] on any value. *)
Definition json_get (k : string) (v : Json) : option Json :=
  match v with JObject m => assoc_get k m | _ => None end.

(** The fields of [CodexProviderInput] that [create_codex_provider] reads. *)
Record ProviderInput : Type := mkProviderInput {
  in_id : string;
  in_name : string;
  in_category : string;
  in_settings_config : string;
  in_source_provider_id : option string;
  in_website_url : option string;
  in_notes : option string;
  in_icon : option string;
  in_icon_color : option string;
  in_sort_index : option Z
}.

Definition with_times (p : Provider) (c u : string) : Provider :=
  {| provider_id := provider_id p; name := name p; category := category p;
     settings_config := settings_config p;
     source_provider_id := source_provider_id p; website_url := website_url p;
     notes := notes p; icon := icon p; icon_color := icon_color p;
     sort_index := sort_index p; is_applied := is_applied p;
     created_at := c; updated_at := u |}.

(** [result.sort_by_key(|p| p.sort_index.unwrap_or(0))]: a stable sort,
    written as insertion sort (the stable sort of a list is unique). *)
Definition sort_key (p : Provider) : Z :=
  match sort_index p with Some i => i | None => 0%Z end.

Fixpoint insert_by_key (x : Provider) (l : list Provider) : list Provider :=
  match l with
  | [] => [x]
  | y :: l' => if Z.leb (sort_key x) (sort_key y) then x :: l
               else y :: insert_by_key x l'
  end.

Fixpoint sort_by_key (l : list Provider) : list Provider :=
  match l with
  | [] => []
  | x :: l' => insert_by_key x (sort_by_key l')
  end.

(** The record [create_codex_provider] writes: applied forced to false,
    both timestamps set to now. *)
Definition content_of_input (input : ProviderInput) (ts : string) : Provider :=
  {| provider_id := in_id input; name := in_name input;
     category := in_category input;
     settings_config := in_settings_config input;
     source_provider_id := in_source_provider_id input;
     website_url := in_website_url input; notes := in_notes input;
     icon := in_icon input; icon_color := in_icon_color input;
     sort_index := in_sort_index input; is_applied := false;
     created_at := ts; updated_at := ts |}.

Section Commands.

(** serde_json: [from_str], [to_string], [to_string_pretty] on [Value]
    (the printers cannot fail on a [Value]). *)
Variable json_from_str : string -> result Json.
Variable json_to_string : Json -> string.
Variable json_to_string_pretty : Json -> string.

(** toml: values, [from_str::<toml::Table>] and [to_string_pretty]. *)
Context {TValue : Type}.
Variable toml_from_str : string -> result (gmap string TValue).
Variable toml_to_string_pretty : gmap string TValue -> result string.

(** [merge_toml_configs] *)
Definition merge_tables (common_table provider_table : gmap string TValue)
  : gmap string TValue :=
  fold_left (fun merged kv => <[kv.1 := kv.2]> merged)
            (map_to_list provider_table) common_table.

Definition merge_toml_configs (common provider : string) : result string :=
  if is_blank common then Ok provider
  else if is_blank provider then Ok common
  else
    match toml_from_str common with
    | Err e => Err ("Failed to parse common TOML: " ++ e)
    | Ok common_table =>
      match toml_from_str provider with
      | Err e => Err ("Failed to parse provider TOML: " ++ e)
      | Ok provider_table =>
        match toml_to_string_pretty (merge_tables common_table provider_table) with
        | Err e => Err ("Failed to serialize merged TOML: " ++ e)
        | Ok s => Ok s
        end
      end
    end.

(** [write_codex_config_files] *)
Definition write_codex_config_files (auth : Json) (config_toml : string) : M unit :=
  config_dir <-- get_codex_config_dir ;;
  w <-- get_world ;;
  (if negb (w_dir w) then fs_create_dir "Failed to create .codex directory"
   else ret tt) ;;;
  fs_write FWriteAuth (path_join config_dir "auth.json") (json_to_string_pretty auth)
           "Failed to write auth.json" ;;;
  fs_write FWriteConfig (path_join config_dir "config.toml") config_toml
           "Failed to write config.toml".

(** [apply_config_to_file_public] *)
Definition apply_config_to_file (id : string) : M unit :=
  provider_result <-- db_take QSelectById "Failed to query provider"
                              (fun w => rows_by_id id (w_store w)) ;;
  match provider_result with
  | Err e => fail ("Failed to deserialize provider: " ++ e)
  | Ok [] => fail "Provider not found"
  | Ok (provider :: _) =>
    match json_from_str (settings_config provider) with
    | Err e => fail ("Failed to parse provider config: " ++ e)
    | Ok provider_config =>
      common_result <-- db_take QSelectCommon "Failed to query common config"
                                (fun w => w_common w) ;;
      let common_toml := match common_result with Ok c => c | Err _ => None end in
      let auth := match json_get "auth" provider_config with
                  | Some a => a | None => JObject [] end in
      let config_toml := match json_get "config" provider_config with
                         | Some (JString s) => s | _ => "" end in
      config_toml <-- (match common_toml with
                      | Some common =>
                          if negb (is_blank common)
                          then lift (merge_toml_configs common config_toml)
                          else ret config_toml
                      | None => ret config_toml
                      end) ;;
      write_codex_config_files auth config_toml
    end
  end.

(** [apply_config_internal] (the event emission is not modelled). *)
Definition apply_config_internal (id : string) : M unit :=
  apply_config_to_file id ;;;
  ts <-- now ;;
  db_reset_applied ts "Failed to reset applied status" ;;;
  db_set_applied id ts "Failed to set applied status".

(** [select_codex_provider] *)
Definition select_codex_provider (id : string) : M unit :=
  ts <-- now ;;
  db_reset_applied ts "Failed to reset applied status" ;;;
  db_set_applied id ts "Failed to set applied status".

(** [list_codex_providers] *)
Definition list_codex_providers : M (list Provider) :=
  records_result <-- db_take QSelectAll "Failed to query providers"
                             (fun w => map snd (map_to_list (w_store w))) ;;
  match records_result with
  | Ok records => ret (sort_by_key records)
  | Err _ => ret []
  end.

(** [create_codex_provider] *)
Definition create_codex_provider (input : ProviderInput) : M Provider :=
  check_result <-- db_take QSelectById "Failed to check provider existence"
                           (fun w => rows_by_id (in_id input) (w_store w)) ;;
  match check_result with
  | Ok (_ :: _) =>
      fail ("Codex provider with ID '" ++ in_id input ++ "' already exists")
  | _ =>
    ts <-- now ;;
    let content := content_of_input input ts in
    db_create (in_id input) content "Failed to create provider" ;;;
    ret content
  end.

(** [update_codex_provider] *)
Definition update_codex_provider (provider : Provider) : M Provider :=
  existing_result <-- db_take QSelectById "Failed to query existing provider"
                              (fun w => rows_by_id (provider_id provider) (w_store w)) ;;
  ts <-- now ;;
  created <-- (if negb (String.eqb (created_at provider) "")
               then ret (created_at provider)
               else match existing_result with
                    | Ok (record :: _) => ret (created_at record)
                    | _ => fail "Provider not found"
                    end) ;;
  let content := with_times provider created ts in
  db_delete (provider_id provider) "Failed to delete old provider" ;;;
  db_create (provider_id provider) content "Failed to create updated provider" ;;;
  (if is_applied content
   then ignore_err (apply_config_to_file (provider_id provider))
   else ret tt) ;;;
  ret content.

(** [init_codex_provider_from_settings] *)
Definition default_config_id : string := "default-config".

Definition init_codex_provider_from_settings : M unit :=
  count_result <-- db_take QCount "Failed to count providers"
                           (fun w => Z.of_nat (size (w_store w))) ;;
  let has_providers := match count_result with
                       | Ok n => Z.ltb 0 n | Err _ => false end in
  if has_providers then ret tt
  else
    config_dir <-- get_codex_config_dir ;;
    let auth_path := path_join config_dir "auth.json" in
    auth_exists <-- file_exists auth_path ;;
    if negb auth_exists then ret tt
    else
      auth_read <-- fs_read FReadAuth auth_path ;;
      auth_content <-- lift (match auth_read with
                            | Ok s => Ok s
                            | Err e => Err ("Failed to read auth.json: " ++ e) end) ;;
      auth <-- lift (match json_from_str auth_content with
                    | Ok a => Ok a
                    | Err e => Err ("Failed to parse auth.json: " ++ e) end) ;;
      let config_path := path_join config_dir "config.toml" in
      config_exists <-- file_exists config_path ;;
      config_toml <-- (if config_exists
                      then r <-- fs_read FReadConfig config_path ;;
                           ret (match r with Ok s => s | Err _ => "" end)
                      else ret "") ;;
      let settings := JObject [("auth", auth); ("config", JString config_toml)] in
      ts <-- now ;;
      let content :=
        {| provider_id := default_config_id; name := "默认配置"; category := "";
           settings_config := json_to_string settings;
           source_provider_id := None; website_url := None;
           notes := Some "从配置文件自动导入"; icon := None; icon_color := None;
           sort_index := Some 0%Z; is_applied := true;
           created_at := ts; updated_at := ts |} in
      db_create default_config_id content "Failed to create provider".

End Commands.

(* ------------------------------------------------------------------ *)
(** ** Paths ([std::path] on a non-Windows host) *)

Module PathModel.

(** Rust's [str::split] with a character predicate: the segments between
    separators, empty ones included. *)
Fixpoint split_on (sep : ascii -> bool) (s : string) : list string :=
  match s with
  | EmptyString => [""]
  | String c s' =>
      let rest := split_on sep s' in
      if sep c then "" :: rest
      else match rest with
           | [] => [String c ""]
           | r :: rs => String c r :: rs
           end
  end.

Definition is_slash (c : ascii) : bool := Ascii.eqb c "/".
Definition is_backslash (c : ascii) : bool := Ascii.eqb c "\".
Definition is_any_sep (c : ascii) : bool := is_slash c || is_backslash c.

(** A [PathBuf], as its [components()]: whether it has a root, and its
    normal (or [..]) components. Rust compares paths by components, so
    [Path == Path] is equality of this record. The string a remainder path
    is printed as is the components joined by "/"; the original separators
    inside it do not change any later step below. *)
Record PathBuf : Type := mkPath { pb_abs : bool; pb_comps : list string }.

Definition starts_with_slash (s : string) : bool :=
  match s with String c _ => is_slash c | EmptyString => false end.

Definition comp_keep (seg : string) : bool :=
  negb (String.eqb seg "") && negb (String.eqb seg ".").

(** [PathBuf::from(s)] *)
Definition path_of_string (s : string) : PathBuf :=
  {| pb_abs := starts_with_slash s;
     pb_comps := List.filter comp_keep (split_on is_slash s) |}.

(** [base.join(s)]: an absolute argument replaces the base. *)
Definition join (base : PathBuf) (s : string) : PathBuf :=
  let q := path_of_string s in
  if pb_abs q then q
  else {| pb_abs := pb_abs base; pb_comps := pb_comps base ++ pb_comps q |}.

Fixpoint strip_list (pre l : list string) : option (list string) :=
  match pre, l with
  | [], _ => Some l
  | x :: pre', y :: l' => if String.eqb x y then strip_list pre' l' else None
  | _ :: _, [] => None
  end.

(** [p.strip_prefix(c)]: the remaining components. *)
Definition strip_prefix (p c : PathBuf) : option (list string) :=
  if Bool.eqb (pb_abs p) (pb_abs c) then strip_list (pb_comps c) (pb_comps p)
  else None.

(** [p.file_name()] *)
Definition file_name (p : PathBuf) : option string :=
  match last (pb_comps p) with
  | Some n => if String.eqb n ".." then None else Some n
  | None => None
  end.

Definition path_to_string (p : PathBuf) : string :=
  (if pb_abs p then "/" else "") ++ String.concat "/" (pb_comps p).

(** [s.replace('\\', "/")] *)
Fixpoint replace_backslash (s : string) : string :=
  match s with
  | EmptyString => EmptyString
  | String c s' =>
      String (if is_backslash c then "/"%char else c) (replace_backslash s')
  end.

(** [to_relative_central_path] *)
Definition to_relative_central_path (absolute_path central_dir : PathBuf) : string :=
  match strip_prefix absolute_path central_dir with
  | Some rel => replace_backslash (String.concat "/" rel)
  | None =>
      match file_name absolute_path with
      | Some n => n
      | None => replace_backslash (path_to_string absolute_path)
      end
  end.

Definition is_ascii_alphabetic (c : ascii) : bool :=
  let n := nat_of_ascii c in
  (Nat.leb 65 n && Nat.leb n 90) || (Nat.leb 97 n && Nat.leb n 122).

(** [is_any_platform_absolute] *)
Definition is_any_platform_absolute (path : string) : bool :=
  match path with
  | String c0 rest =>
      if is_slash c0 then true
      else match rest with
           | String c1 (String c2 _) =>
               is_ascii_alphabetic c0 && Ascii.eqb c1 ":"
               && (is_backslash c2 || is_slash c2)
           | _ => false
           end
  | EmptyString => false
  end.

Section Resolve.

(** [Path::exists] on the local file system. *)
Variable path_exists : PathBuf -> bool.

(** [resolve_skill_central_path] *)
Definition resolve_skill_central_path (stored_path : string)
  (current_central_dir : PathBuf) : PathBuf :=
  let stored := path_of_string stored_path in
  if pb_abs stored && path_exists stored then stored
  else if is_any_platform_absolute stored_path then
    let name := match List.find (fun s => negb (String.eqb s ""))
                                (rev (split_on is_any_sep stored_path)) with
                | Some n => n
                | None => stored_path
                end in
    join current_central_dir name
  else join current_central_dir stored_path.

End Resolve.

(** Spec side: the final non-empty segment of a path string, splitting on
    both separators. *)
Definition final_segment (s : string) : option string :=
  last (List.filter (fun seg => negb (String.eqb seg "")) (split_on is_any_sep s)).

(** A remainder whose first component is a drive label such as [C:] and
    which has a further component prints as [C:/...]. *)
Definition drive_label_first (rel : list string) : bool :=
  match rel with
  | String a (String b EmptyString) :: _ :: _ =>
      is_ascii_alphabetic a && Ascii.eqb b ":"
  | _ => false
  end.

Definition has_backslash (s : string) : bool :=
  existsb is_backslash (list_ascii_of_string s).

(** Strings without a separator, and the components a parse yields. *)
Definition no_sep (sep : ascii -> bool) (s : string) : Prop :=
  existsb sep (list_ascii_of_string s) = false.

(** A component of a parsed path: not empty, not [.], without [/]. *)
Definition seg_ok (seg : string) : Prop :=
  comp_keep seg = true /\ no_sep is_slash seg.

End PathModel.

(* ------------------------------------------------------------------ *)
(** ** oh_my_opencode adapter: deep merge and cleaning *)

Module JsonMerge.

(** The loop over [overlay_obj] of [deep_merge_json], given the recursive
    call. *)
Fixpoint merge_entries (dm : Json -> Json -> Json)
  (base_obj overlay_obj : list (string * Json)) : list (string * Json) :=
  match overlay_obj with
  | [] => base_obj
  | (key, value) :: rest =>
      let base_obj' :=
        match assoc_get key base_obj with
        | Some base_value =>
            if json_is_object base_value && json_is_object value
            then assoc_set key (dm base_value value) base_obj
            else assoc_set key value base_obj
        | None => app base_obj [(key, value)]
        end in
      merge_entries dm base_obj' rest
  end.

(** [deep_merge_json(base, overlay)]: the new value of [base]. *)
Fixpoint deep_merge_json (base overlay : Json) {struct overlay} : Json :=
  match base, overlay with
  | JObject base_obj, JObject overlay_obj =>
      JObject (merge_entries deep_merge_json base_obj overlay_obj)
  | _, _ => base
  end.

Definition is_empty_object (v : Json) : bool :=
  match v with JObject [] => true | _ => false end.

(** The [retain] of [clean_empty_values], given the recursive call. *)
Fixpoint retain_entries (cl : Json -> Json) (m : list (string * Json))
  : list (string * Json) :=
  match m with
  | [] => []
  | (k, v) :: m' =>
      let v' := cl v in
      if negb (json_is_object v' && is_empty_object v') && negb (json_is_null v')
      then (k, v') :: retain_entries cl m'
      else retain_entries cl m'
  end.

(** [clean_empty_values(value)]: the new value. *)
Fixpoint clean_empty_values (v : Json) : Json :=
  match v with
  | JObject m => JObject (retain_entries clean_empty_values m)
  | _ => v
  end.

(** A [serde_json::Value]: every map has distinct keys. *)
Inductive json_wf : Json -> Prop :=
| wf_null : json_wf JNull
| wf_bool b : json_wf (JBool b)
| wf_number n : json_wf (JNumber n)
| wf_string s : json_wf (JString s)
| wf_array l : Forall json_wf l -> json_wf (JArray l)
| wf_object m : NoDup (map fst m) -> Forall (fun kv => json_wf kv.2) m ->
                json_wf (JObject m).

Definition json_entries (v : Json) : list (string * Json) :=
  match v with JObject m => m | _ => [] end.

(** Spec side: no mapping reachable through mappings holds a null or an
    empty mapping. *)
Fixpoint pruned_entries (pr : Json -> Prop) (m : list (string * Json)) : Prop :=
  match m with
  | [] => True
  | (_, x) :: m' => (x <> JNull /\ x <> JObject [] /\ pr x) /\ pruned_entries pr m'
  end.

Fixpoint pruned (v : Json) : Prop :=
  match v with
  | JObject m => pruned_entries pruned m
  | _ => True
  end.

Section JsonInd.
Variable P : Json -> Prop.
Hypothesis P_null : P JNull.
Hypothesis P_bool : forall b, P (JBool b).
Hypothesis P_number : forall n, P (JNumber n).
Hypothesis P_string : forall s, P (JString s).
Hypothesis P_array : forall l, Forall P l -> P (JArray l).
Hypothesis P_object : forall m, Forall (fun kv => P kv.2) m -> P (JObject m).

(** Induction over values with the hypothesis on every nested value. *)
Fixpoint json_nested_ind (v : Json) : P v :=
  match v with
  | JNull => P_null
  | JBool b => P_bool b
  | JNumber n => P_number n
  | JString s => P_string s
  | JArray l =>
      P_array l
        ((fix go (l : list Json) : Forall P l :=
            match l with
            | [] => @List.Forall_nil _ _
            | x :: l' => @List.Forall_cons _ P x l' (json_nested_ind x) (go l')
            end) l)
  | JObject m =>
      P_object m
        ((fix go (m : list (string * Json)) : Forall (fun kv => P kv.2) m :=
            match m with
            | [] => @List.Forall_nil _ _
            | (k, x) :: m' =>
                @List.Forall_cons _ (fun kv => P kv.2) (k, x) m' (json_nested_ind x) (go m')
            end) m)
  end.
End JsonInd.

End JsonMerge.

(* ------------------------------------------------------------------ *)
(** ** More of the codex commands *)

(** [UPDATE codex_provider SET sort_index = i, updated_at = now] applied to
    one record. *)
Definition set_sort_index (i : Z) (now : string) (p : Provider) : Provider :=
  {| provider_id := provider_id p; name := name p; category := category p;
     settings_config := settings_config p;
     source_provider_id := source_provider_id p; website_url := website_url p;
     notes := notes p; icon := icon p; icon_color := icon_color p;
     sort_index := Some i; is_applied := is_applied p;
     created_at := created_at p; updated_at := now |}.

(** [index as i32] for a [usize] index: the low 32 bits, read in two's
    complement. *)
Definition i32_of_nat (n : nat) : Z :=
  let z := (Z.of_nat n mod 2 ^ 32)%Z in
  if Z.leb (2 ^ 31) z then (z - 2 ^ 32)%Z else z.

(** [UPDATE codex_provider SET sort_index = $index, updated_at = $now
     WHERE provider_id = $id]. *)
Definition db_set_sort_index (index : nat) (id ts : string) (prefix : string)
  : M unit :=
  db_call (QSetSortIndex index) prefix ;;;
  w <-- get_world ;;
  set_store ((fun p => if decide (provider_id p = id)
                       then set_sort_index (i32_of_nat index) ts p else p) <$> w_store w).

(** [delete_codex_provider] (the event emission is not modelled). *)
Definition delete_codex_provider (id : string) : M unit :=
  db_delete id "Failed to delete codex provider".

(** The loop of [reorder_codex_providers] from position [index] on: the
    first failing update ends it with its error ([?]). *)
Fixpoint reorder_from (index : nat) (ids : list string) (ts : string) : M unit :=
  match ids with
  | [] => ret tt
  | id :: rest =>
      db_set_sort_index index id ts ("Failed to update provider " ++ id) ;;;
      reorder_from (S index) rest ts
  end.

(** [reorder_codex_providers]: one timestamp for the whole loop. *)
Definition reorder_codex_providers (ids : list string) : M unit :=
  ts <-- now ;;
  reorder_from 0 ids ts.

Definition set_common (c : option string) : M unit :=
  modify (fun w => {| w_store := w_store w; w_common := c;
                      w_dir := w_dir w; w_files := w_files w;
                      w_trace := w_trace w |}).

(** [DELETE codex_common_config:`common`]. *)
Definition db_delete_common (prefix : string) : M unit :=
  db_call QDeleteCommon prefix ;;;
  set_common None.

(** [CREATE codex_common_config:`common` CONTENT $data], [$data] holding
    the config string (read back through its [config] field, as in
    [apply_config_to_file_public]); as for [db_create], an existing record
    is not overwritten. *)
Definition db_create_common (config : string) (prefix : string) : M unit :=
  db_call QCreateCommon prefix ;;;
  w <-- get_world ;;
  match w_common w with
  | Some _ => ret tt
  | None => set_common (Some config)
  end.

(** The rows with [is_applied = true] (LIMIT 1). *)
Definition rows_applied (t : Table) : list Provider :=
  take 1 (filter (fun p => is_applied p = true) (map snd (map_to_list t))).

Section MoreCommands.
Variable json_from_str : string -> result Json.
Variable json_to_string_pretty : Json -> string.
Context {TValue : Type}.
Variable toml_from_str : string -> result (gmap string TValue).
Variable toml_to_string_pretty : gmap string TValue -> result string.

(** [save_codex_common_config] *)
Definition save_codex_common_config (config : string) : M unit :=
  (if negb (is_blank config)
   then match toml_from_str config with
        | Err e => fail ("Invalid TOML: " ++ e)
        | Ok _ => ret tt
        end
   else ret tt) ;;;
  db_delete_common "Failed to delete old config" ;;;
  db_create_common config "Failed to create config" ;;;
  applied_result <-- db_take QSelectApplied "Failed to query applied provider"
                             (fun w => rows_applied (w_store w)) ;;
  match applied_result with
  | Ok (record :: _) =>
      ignore_err (apply_config_to_file json_from_str json_to_string_pretty
                    toml_from_str toml_to_string_pretty (provider_id record))
  | _ => ret tt
  end.

End MoreCommands.

(* ------------------------------------------------------------------ *)
(** ** [expand_home_path] *)

Module HomePath.
Import PathModel.

(** [s.strip_prefix("~/")] *)
Definition strip_tilde_slash (s : string) : option string :=
  match s with
  | String "~" (String "/" rest) => Some rest
  | _ => None
  end.

(** [expand_home_path]; [home] is [dirs::home_dir()]. *)
Definition expand_home_path (home : option PathBuf) (input : string)
  : result PathBuf :=
  let trimmed := str_trim input in
  if String.eqb trimmed "" then Err "storage path is empty"
  else if String.eqb trimmed "~" then
    match home with
    | Some h => Ok h
    | None => Err "failed to resolve home directory"
    end
  else match strip_tilde_slash trimmed with
       | Some stripped =>
           match home with
           | Some h => Ok (join h stripped)
           | None => Err "failed to resolve home directory"
           end
       | None => Ok (path_of_string trimmed)
       end.

End HomePath.

(* ================================================================== *)
(** * Predicates and scenarios used by the statements *)

(** Providers ordered by their sort key. *)
Definition key_le (p q : Provider) : Prop := (sort_key p <= sort_key q)%Z.

(** ** Effects of a command on the world *)

(** [m] relates every start world to its final world by [R]. *)
Definition preserves {A} (R : World -> World -> Prop) (m : M A) : Prop :=
  forall env w, R w (snd (m env w)).

(** The table is not touched. *)
Definition same_store (w w' : World) : Prop := w_store w' = w_store w.

(** The trace only grows, by events satisfying [P]. *)
Definition trace_grows (P : Event -> Prop) (w w' : World) : Prop :=
  exists t, w_trace w' = (w_trace w ++ t)%list /\ Forall P t.

(** Events issued by the flag flip and by the file writes. *)
Definition flag_event (e : Event) : Prop :=
  e = EvDb QResetApplied \/ e = EvDb QSetApplied.
Definition write_event (e : Event) : Prop :=
  e = EvFs FCreateDir \/ e = EvFs FWriteAuth \/ e = EvFs FWriteConfig.

(** The table property [P] carries over from start to end. *)
Definition store_rel (P : Table -> Prop) (w w' : World) : Prop :=
  P (w_store w) -> P (w_store w').

(** ** Sequences of commands and the applied flag *)

(** Every record sits under the key equal to its [provider_id], as every
    command writes it. *)
Definition keyed (t : Table) : Prop :=
  forall k p, t !! k = Some p -> provider_id p = k.

Definition at_most_one_applied (t : Table) : Prop :=
  forall k1 k2 p1 p2, t !! k1 = Some p1 -> t !! k2 = Some p2 ->
  is_applied p1 = true -> is_applied p2 = true -> k1 = k2.

Definition store_ok (t : Table) : Prop := keyed t /\ at_most_one_applied t.

(** An update that keeps the invariant: it does not set the flag, or every
    profile applied so far is the one being updated. *)
Definition update_keeps_one (t : Table) (p : Provider) : Prop :=
  is_applied p = false \/
  (forall k q, t !! k = Some q -> is_applied q = true -> k = provider_id p).

(** The commands of the claim, each run with its own environment. *)
Inductive Op : Type :=
| OpCreate (input : ProviderInput)
| OpSelect (id : string)
| OpApply (id : string)
| OpUpdate (p : Provider).

Section Run.
Variable json_from_str : string -> result Json.
Variable json_to_string_pretty : Json -> string.
Context {TValue : Type}.
Variable toml_from_str : string -> result (gmap string TValue).
Variable toml_to_string_pretty : gmap string TValue -> result string.

Definition run_op (o : Op) : M unit :=
  match o with
  | OpCreate input => create_codex_provider input ;;; ret tt
  | OpSelect id => select_codex_provider id
  | OpApply id => apply_config_internal json_from_str json_to_string_pretty
                    toml_from_str toml_to_string_pretty id
  | OpUpdate p => update_codex_provider json_from_str json_to_string_pretty
                    toml_from_str toml_to_string_pretty p ;;; ret tt
  end.

Fixpoint run_ops (ops : list (Op * Env)) (w : World) : list (result unit) * World :=
  match ops with
  | [] => ([], w)
  | (o, env) :: rest =>
      let '(r, w1) := run_op o env w in
      let '(rs, w2) := run_ops rest w1 in
      (r :: rs, w2)
  end.

Fixpoint ops_safe (ops : list (Op * Env)) (w : World) : Prop :=
  match ops with
  | [] => True
  | (o, env) :: rest =>
      match o with
      | OpUpdate p => update_keeps_one (w_store w) p
      | _ => True
      end /\ ops_safe rest (snd (run_op o env w))
  end.
End Run.

(** The flag update of [db_set_applied] on one record. *)
Definition flag_one (id ts : string) (p : Provider) : Provider :=
  if decide (provider_id p = id) then set_applied true ts p else p.

(** ** The common-config record and the re-apply *)

(** The common-config record is not touched. *)
Definition same_common (w w' : World) : Prop := w_common w' = w_common w.

(** The world after [save_codex_common_config] has replaced the
    common-config record and queried the applied profile. *)
Definition saved_common_world (config : string) (w : World) : World :=
  {| w_store := w_store w; w_common := Some config; w_dir := w_dir w;
     w_files := w_files w;
     w_trace := w_trace w ++ [EvDb QDeleteCommon; EvDb QCreateCommon;
                              EvDb QSelectApplied] |}.

(** ** Concrete scenarios *)

(** Concrete runs: every query and file step succeeds. *)
Definition ok_env : Env :=
  {| env_db := fun _ => QOk; env_fs_fail := fun _ => None;
     env_home := Some "/home/u"; env_now := "t0" |}.

Definition empty_world : World :=
  {| w_store := ∅; w_common := None; w_dir := false; w_files := ∅;
     w_trace := [] |}.

Definition sample_input (id : string) : ProviderInput :=
  mkProviderInput id "n" "" "{}" None None None None None None.

Definition sample_provider (id : string) (applied : bool) : Provider :=
  mkProvider id "n" "" "{}" None None None None None None applied "t0" "t0".

Definition json_ok (_ : string) : result Json := Ok (JObject []).
Definition json_print (_ : Json) : string := "{}".
Definition toml_ok (_ : string) : result (gmap string unit) := Ok ∅.
Definition toml_print (_ : gmap string unit) : result string := Ok "".

Definition run_sample (ops : list (Op * Env)) : list (result unit) * World :=
  run_ops json_ok json_print toml_ok toml_print ops empty_world.

Definition safe_ops : list (Op * Env) :=
  [(OpCreate (sample_input "a"), ok_env); (OpCreate (sample_input "b"), ok_env);
   (OpSelect "a", ok_env); (OpApply "b", ok_env);
   (OpUpdate (sample_provider "a" false), ok_env)].

(** Create [a], select it, then update [b] with the flag set. *)
Definition two_applied_ops : list (Op * Env) :=
  [(OpCreate (sample_input "a"), ok_env); (OpSelect "a", ok_env);
   (OpUpdate (sample_provider "b" true), ok_env)].

(** A parser that accepts only the empty object. *)
Definition json_strict (s : string) : result Json :=
  if String.eqb s "{}" then Ok (JObject []) else Err "expected value".

(** Empty table, auth.json present with content the parser rejects. *)
Definition legacy_world : World :=
  {| w_store := ∅; w_common := None; w_dir := true;
     w_files := {["/home/u/.codex/auth.json" := "not json"]}; w_trace := [] |}.

(** A world with the given table and nothing else. *)
Definition sample_world (t : Table) : World :=
  {| w_store := t; w_common := None; w_dir := false; w_files := ∅;
     w_trace := [] |}.

(** Every query succeeds except the second sort-index update. *)
Definition sort_fail_env : Env :=
  {| env_db := fun c => match c with
                        | QSetSortIndex 1 => QErr "locked"
                        | _ => QOk
                        end;
     env_fs_fail := fun _ => None; env_home := Some "/home/u"; env_now := "t0" |}.

(* ================================================================== *)
(** * Properties *)

(* ------------------------------------------------------------------ *)
(** ** Layered TOML merge *)

Section MergeToml.

Context {TValue : Type}.
Variable toml_from_str : string -> result (gmap string TValue).
Variable toml_to_string_pretty : gmap string TValue -> result string.

Lemma fold_insert_lookup (l : list (string * TValue)) (m : gmap string TValue) k :
  NoDup l.*1 ->
  fold_left (fun mg kv => <[kv.1 := kv.2]> mg) l m !! k =
  match (list_to_map l : gmap string TValue) !! k with
  | Some v => Some v
  | None => m !! k
  end.
Proof.
  revert m. induction l as [|[k' v] l IH]; intros m Hnd; simpl.
  - rewrite lookup_empty. reflexivity.
  - inversion Hnd as [|? ? Hnotin Hnd']; subst.
    rewrite IH by exact Hnd'.
    destruct (decide (k' = k)) as [->|Hne].
    + rewrite !lookup_insert_eq.
      rewrite (not_elem_of_list_to_map_1 l k) by exact Hnotin. reflexivity.
    + rewrite !lookup_insert_ne by exact Hne. reflexivity.
Qed.

Lemma merge_tables_lookup (ct pt : gmap string TValue) k :
  merge_tables ct pt !! k =
  match pt !! k with Some v => Some v | None => ct !! k end.
Proof.
  unfold merge_tables.
  rewrite fold_insert_lookup by apply NoDup_fst_map_to_list.
  rewrite list_to_map_to_list. reflexivity.
Qed.

(** C3 (amended). A blank common layer yields the profile text unchanged;
    a non-blank common layer with a blank profile layer yields the common
    text unchanged; with both non-blank, a malformed layer is a parse
    error, and otherwise the result is the serialisation of the table in
    which each top-level key of the profile layer carries the profile's
    value wholesale and each key only in the common layer keeps its value. *)
Theorem merge_toml_configs_layers (common provider : string) :
  (is_blank common = true ->
   merge_toml_configs toml_from_str toml_to_string_pretty common provider = Ok provider) /\
  (is_blank common = false -> is_blank provider = true ->
   merge_toml_configs toml_from_str toml_to_string_pretty common provider = Ok common) /\
  (is_blank common = false -> is_blank provider = false ->
   (forall e, toml_from_str common = Err e ->
      merge_toml_configs toml_from_str toml_to_string_pretty common provider
      = Err ("Failed to parse common TOML: " ++ e)) /\
   (forall ct e, toml_from_str common = Ok ct -> toml_from_str provider = Err e ->
      merge_toml_configs toml_from_str toml_to_string_pretty common provider
      = Err ("Failed to parse provider TOML: " ++ e)) /\
   (forall ct pt, toml_from_str common = Ok ct -> toml_from_str provider = Ok pt ->
      exists merged : gmap string TValue,
        merge_toml_configs toml_from_str toml_to_string_pretty common provider
        = match toml_to_string_pretty merged with
          | Ok s => Ok s
          | Err e => Err ("Failed to serialize merged TOML: " ++ e)
          end /\
        (forall k v, pt !! k = Some v -> merged !! k = Some v) /\
        (forall k, pt !! k = None -> merged !! k = ct !! k))).
Proof.
  unfold merge_toml_configs.
  split; [intros Hc; rewrite Hc; reflexivity|].
  split; [intros Hc Hp; rewrite Hc, Hp; reflexivity|].
  intros Hc Hp. rewrite Hc, Hp. simpl.
  split; [intros e He; rewrite He; reflexivity|].
  split; [intros ct e Hct He; rewrite Hct, He; reflexivity|].
  intros ct pt Hct Hpt. rewrite Hct, Hpt.
  exists (merge_tables ct pt). split; [reflexivity|]. split.
  - intros k v Hk. rewrite merge_tables_lookup, Hk. reflexivity.
  - intros k Hk. rewrite merge_tables_lookup, Hk. reflexivity.
Qed.

End MergeToml.

(** C3 counterexample: with both layers blank, [merge(X, "") = X] fails for
    the blank [X = " "]: the profile text [""] is returned. *)
Lemma merge_toml_configs_blank_pair :
  merge_toml_configs (TValue := unit) (fun _ => Err "unused") (fun _ => Err "unused")
    " " "" = Ok "" /\
  merge_toml_configs (TValue := unit) (fun _ => Err "unused") (fun _ => Err "unused")
    " " "" <> Ok " ".
Proof. split; [reflexivity | discriminate]. Qed.

(** U+00A0 (bytes [C2 A0]) is white space for [str::trim]: a common layer
    holding only it counts as blank, and the profile text is returned
    without parsing either layer. *)
Lemma merge_toml_configs_nbsp_common :
  merge_toml_configs (TValue := unit) (fun _ => Err "unused") (fun _ => Err "unused")
    (String (ascii_of_nat 194) (String (ascii_of_nat 160) EmptyString)) "k = 1"
  = Ok "k = 1".
Proof. reflexivity. Qed.

(* ------------------------------------------------------------------ *)
(** ** Central-repository paths *)

Module PathFacts.
Import PathModel.

Lemma find_app {A} (f : A -> bool) (l1 l2 : list A) :
  List.find f (l1 ++ l2) =
  match List.find f l1 with Some y => Some y | None => List.find f l2 end.
Proof.
  induction l1 as [|x l1 IH]; simpl; [reflexivity|].
  destruct (f x); [reflexivity | exact IH].
Qed.

(** [rsplit(..).find(non-empty)] is the last non-empty segment. *)
Lemma find_rev_last {A} (f : A -> bool) (l : list A) :
  List.find f (rev l) = last (List.filter f l).
Proof.
  induction l as [|x l IH]; simpl; [reflexivity|].
  rewrite find_app, IH. simpl.
  destruct (f x) eqn:Hx.
  - rewrite last_cons. destruct (last (List.filter f l)); reflexivity.
  - destruct (last (List.filter f l)); reflexivity.
Qed.

Lemma split_on_no_sep sep s : no_sep sep s -> split_on sep s = [s].
Proof.
  unfold no_sep. induction s as [|c s IH]; simpl; intros H; [reflexivity|].
  apply orb_false_iff in H as [H1 H2].
  rewrite IH by exact H2. rewrite H1. reflexivity.
Qed.

Lemma split_on_app_sep sep s c t :
  no_sep sep s -> sep c = true ->
  split_on sep (s ++ String c t) = s :: split_on sep t.
Proof.
  unfold no_sep. induction s as [|a s IH]; simpl; intros H Hc.
  - rewrite Hc. reflexivity.
  - apply orb_false_iff in H as [H1 H2].
    rewrite IH by assumption. rewrite H1. reflexivity.
Qed.

Lemma split_on_segments sep s : Forall (no_sep sep) (split_on sep s).
Proof.
  unfold no_sep. induction s as [|c s IH]; simpl.
  - constructor; [reflexivity | constructor].
  - destruct (sep c) eqn:Hc.
    + constructor; [reflexivity | exact IH].
    + destruct (split_on sep s) as [|r rs] eqn:Hs.
      * constructor; [simpl; rewrite Hc; reflexivity | constructor].
      * inversion IH as [|? ? Hr Hrs]; subst.
        constructor; [simpl; rewrite Hc, Hr; reflexivity | exact Hrs].
Qed.

Lemma path_comps_ok s : Forall seg_ok (pb_comps (path_of_string s)).
Proof.
  simpl. apply List.Forall_forall. intros seg Hin.
  apply filter_In in Hin as [Hin Hk].
  pose proof (split_on_segments is_slash s) as Hall.
  rewrite List.Forall_forall in Hall. split; [exact Hk | exact (Hall seg Hin)].
Qed.

Lemma strip_list_app pre l rel : strip_list pre l = Some rel -> l = (pre ++ rel)%list.
Proof.
  revert l. induction pre as [|x pre IH]; intros l H; simpl in *.
  - injection H as ->. reflexivity.
  - destruct l as [|y l]; [discriminate|].
    destruct (String.eqb_spec x y) as [->|]; [|discriminate].
    rewrite (IH l H). reflexivity.
Qed.

Lemma replace_backslash_app a b :
  replace_backslash (a ++ b) = replace_backslash a ++ replace_backslash b.
Proof. induction a as [|c a IH]; simpl; [reflexivity | rewrite IH; reflexivity]. Qed.

Lemma replace_backslash_id s : has_backslash s = false -> replace_backslash s = s.
Proof.
  unfold has_backslash. induction s as [|c s IH]; simpl; intros H; [reflexivity|].
  apply orb_false_iff in H as [H1 H2]. rewrite H1, IH by exact H2. reflexivity.
Qed.

Lemma replace_backslash_concat rel :
  Forall (fun seg => has_backslash seg = false) rel ->
  replace_backslash (String.concat "/" rel) = String.concat "/" rel.
Proof.
  induction rel as [|x [|y rel] IH]; intros H; [reflexivity| |].
  - inversion H; subst. simpl. apply replace_backslash_id. assumption.
  - inversion H as [|? ? Hx Hrest]; subst.
    change (String.concat "/" (x :: y :: rel))
      with (x ++ "/" ++ String.concat "/" (y :: rel)).
    rewrite !replace_backslash_app, replace_backslash_id by exact Hx.
    rewrite IH by exact Hrest. reflexivity.
Qed.

Lemma split_on_concat rel :
  rel <> [] -> Forall (no_sep is_slash) rel ->
  split_on is_slash (String.concat "/" rel) = rel.
Proof.
  induction rel as [|x [|y rel] IH]; intros Hne H; [congruence| |].
  - inversion H; subst. simpl. apply split_on_no_sep. assumption.
  - inversion H as [|? ? Hx Hrest]; subst.
    change (String.concat "/" (x :: y :: rel))
      with (x ++ String "/" (String.concat "/" (y :: rel))).
    rewrite split_on_app_sep by (assumption || reflexivity).
    rewrite IH by (discriminate || exact Hrest). reflexivity.
Qed.

Lemma seg_ok_cons seg : seg_ok seg ->
  exists a s, seg = String a s /\ is_slash a = false /\ no_sep is_slash s.
Proof.
  intros [Hk Hs]. destruct seg as [|a s]; [discriminate|].
  unfold no_sep in Hs. simpl in Hs. apply orb_false_iff in Hs as [H1 H2].
  exists a, s. auto.
Qed.

Lemma filter_all {A} (f : A -> bool) (l : list A) :
  Forall (fun x => f x = true) l -> List.filter f l = l.
Proof.
  induction 1 as [|x l Hx _ IH]; simpl; [reflexivity|].
  rewrite Hx, IH. reflexivity.
Qed.

(** Printing a remainder and parsing it back gives the remainder. *)
Lemma path_of_concat rel :
  Forall seg_ok rel ->
  path_of_string (String.concat "/" rel) = {| pb_abs := false; pb_comps := rel |}.
Proof.
  intros H. destruct rel as [|x rel]; [reflexivity|].
  unfold path_of_string. f_equal.
  - inversion H as [|? ? Hx _]; subst.
    destruct (seg_ok_cons x Hx) as (a & s & -> & Ha & _).
    destruct rel; simpl; exact Ha.
  - rewrite split_on_concat.
    + apply filter_all. eapply Forall_impl; [exact H | intros ? []; assumption].
    + discriminate.
    + eapply Forall_impl; [exact H | intros ? []; assumption].
Qed.

Lemma has_backslash_cons a s :
  has_backslash (String a s) = is_backslash a || has_backslash s.
Proof. reflexivity. Qed.

Lemma no_sep_cons sep a s :
  no_sep sep (String a s) -> sep a = false /\ no_sep sep s.
Proof. unfold no_sep. simpl. apply orb_false_iff. Qed.

(** A printed remainder never looks like an absolute path on any
    platform, unless a component holds a backslash or the first component
    is a drive label followed by another component. *)
Lemma any_abs_concat_false rel :
  Forall seg_ok rel -> Forall (fun seg => has_backslash seg = false) rel ->
  drive_label_first rel = false ->
  is_any_platform_absolute (String.concat "/" rel) = false.
Proof.
  intros Hok Hb Hd. destruct rel as [|x tl]; [reflexivity|].
  inversion Hok as [|? ? Hx Htl]; subst. inversion Hb as [|? ? Hbx Hbtl]; subst.
  destruct (seg_ok_cons x Hx) as (a & s & -> & Ha & Hs).
  rewrite has_backslash_cons in Hbx. apply orb_false_iff in Hbx as [Hba Hbs].
  destruct tl as [|y tl'].
  - simpl. rewrite Ha.
    destruct s as [|b [|c s']]; try reflexivity.
    apply no_sep_cons in Hs as [_ Hs]. apply no_sep_cons in Hs as [Hc _].
    rewrite !has_backslash_cons in Hbs.
    apply orb_false_iff in Hbs as [_ Hbs]. apply orb_false_iff in Hbs as [Hbc _].
    rewrite Hbc, Hc. apply andb_false_r.
  - change (String.concat "/" (String a s :: y :: tl'))
      with (String a (s ++ String "/" (String.concat "/" (y :: tl')))).
    unfold is_any_platform_absolute. rewrite Ha.
    destruct s as [|b [|c s']].
    + generalize (String.concat "/" (y :: tl')) as u. intros u.
      destruct u as [|c2 u]; simpl; [reflexivity|].
      rewrite andb_false_r. reflexivity.
    + simpl in Hd |- *. rewrite Hd. reflexivity.
    + apply no_sep_cons in Hs as [_ Hs]. apply no_sep_cons in Hs as [Hc _].
      rewrite !has_backslash_cons in Hbs.
      apply orb_false_iff in Hbs as [_ Hbs]. apply orb_false_iff in Hbs as [Hbc _].
      simpl. rewrite Hbc, Hc. apply andb_false_r.
Qed.

(** C4 (amended). For a path [p] under [centralDir] (non-Windows path
    semantics; paths compared component-wise, as [Path == Path] does),
    storing it with [to_relative_central_path] and resolving the stored
    string with [resolve_skill_central_path] gives [p] back, provided the
    part of [p] below [centralDir] has no backslash in a component and does
    not begin with a drive-label component such as [C:] followed by
    further components. *)
Theorem to_relative_resolve_roundtrip (path_exists : PathBuf -> bool)
  (ps cs : string) (rel : list string) :
  strip_prefix (path_of_string ps) (path_of_string cs) = Some rel ->
  Forall (fun seg => has_backslash seg = false) rel ->
  drive_label_first rel = false ->
  resolve_skill_central_path path_exists
    (to_relative_central_path (path_of_string ps) (path_of_string cs))
    (path_of_string cs)
  = path_of_string ps.
Proof.
  intros Hs Hb Hd.
  pose proof (path_comps_ok ps) as Hpok.
  remember (path_of_string ps) as p eqn:Hp.
  remember (path_of_string cs) as c eqn:Hc.
  unfold to_relative_central_path. rewrite Hs.
  rewrite replace_backslash_concat by exact Hb.
  unfold strip_prefix in Hs.
  destruct (Bool.eqb _ _) eqn:Habs; [|discriminate].
  apply Bool.eqb_prop in Habs.
  apply strip_list_app in Hs.
  rewrite Hs in Hpok. apply Forall_app in Hpok as [_ Hrel].
  unfold resolve_skill_central_path.
  rewrite path_of_concat by exact Hrel.
  rewrite andb_false_l.
  rewrite any_abs_concat_false by assumption.
  unfold join. rewrite path_of_concat by exact Hrel.
  clear Hp Hc. destruct p as [pa pc], c as [ca cc]. simpl in *. subst. reflexivity.
Qed.

(** C5. Resolution of a stored path on a non-Windows host: a native
    absolute path that exists is used as it is; otherwise a path with any
    platform's absolute shape (leading [/], or a letter, [:] and a slash or
    backslash) is re-anchored by its final non-empty segment under the
    central directory; otherwise the stored path is joined under it as a
    relative path. A Windows path stored on another machine resolves to
    the central directory joined with its last segment. *)
Theorem resolve_skill_central_path_cases (path_exists : PathBuf -> bool)
  (stored : string) (central : PathBuf) :
  (pb_abs (path_of_string stored) && path_exists (path_of_string stored) = true ->
   resolve_skill_central_path path_exists stored central = path_of_string stored) /\
  (pb_abs (path_of_string stored) && path_exists (path_of_string stored) = false ->
   is_any_platform_absolute stored = true ->
   forall seg, final_segment stored = Some seg ->
   resolve_skill_central_path path_exists stored central = join central seg) /\
  (pb_abs (path_of_string stored) && path_exists (path_of_string stored) = false ->
   is_any_platform_absolute stored = false ->
   resolve_skill_central_path path_exists stored central = join central stored) /\
  (is_any_platform_absolute stored = true <->
   starts_with_slash stored = true \/
   exists a b r, stored = String a (String ":" (String b r)) /\
                 is_ascii_alphabetic a = true /\ (b = "/"%char \/ b = "\"%char)) /\
  resolve_skill_central_path path_exists "C:\Users\x\skills\foo"
    (path_of_string "/data/skills")
  = path_of_string "/data/skills/foo".
Proof.
  unfold resolve_skill_central_path.
  split; [intros H; rewrite H; reflexivity|].
  split.
  { intros H Habs seg Hseg. rewrite H, Habs.
    unfold final_segment in Hseg. rewrite find_rev_last, Hseg. reflexivity. }
  split; [intros H Habs; rewrite H, Habs; reflexivity|].
  split; [|reflexivity].
  destruct stored as [|c0 rest]; simpl.
  - split; [discriminate|]. intros [H|(a & b & r & H & _)]; discriminate.
  - split.
    + destruct (is_slash c0) eqn:Hc0; [auto|].
      destruct rest as [|c1 [|c2 r]]; try discriminate.
      intros H. apply andb_prop in H as [H Hc2]. apply andb_prop in H as [Ha Hc1].
      right. exists c0, c2, r.
      apply Ascii.eqb_eq in Hc1. subst c1. split; [reflexivity|]. split; [exact Ha|].
      apply orb_prop in Hc2 as [Hc2|Hc2]; apply Ascii.eqb_eq in Hc2; auto.
    + intros [H|(a & b & r & H & Ha & Hb)]; [rewrite H; reflexivity|].
      injection H as -> ->.
      destruct (is_slash a); [reflexivity|].
      rewrite Ha. destruct Hb as [->| ->]; reflexivity.
Qed.

(** Witness for C4: a skill folder two levels below the central directory. *)
Lemma to_relative_resolve_roundtrip_witness :
  strip_prefix (path_of_string "/data/skills/team/foo") (path_of_string "/data/skills")
    = Some ["team"; "foo"] /\
  resolve_skill_central_path (fun _ => false)
    (to_relative_central_path (path_of_string "/data/skills/team/foo")
                              (path_of_string "/data/skills"))
    (path_of_string "/data/skills")
  = path_of_string "/data/skills/team/foo".
Proof.
  split; [reflexivity|].
  apply (to_relative_resolve_roundtrip (fun _ => false)
           "/data/skills/team/foo" "/data/skills" ["team"; "foo"]).
  - reflexivity.
  - repeat constructor.
  - reflexivity.
Defined.

(** C4 counterexample: a directory literally named [C:] inside the central
    directory. [/data/skills/C:/foo] is stored as [C:/foo], which has the
    shape of a Windows absolute path, and resolves to [/data/skills/foo].
    A component with a backslash does not round-trip either:
    [/data/skills/x\y] is stored as [x/y] and resolves to
    [/data/skills/x/y], a path with one more component. *)
Lemma to_relative_resolve_drive_named_dir :
  ~ (forall (path_exists : PathBuf -> bool) (ps cs : string) (rel : list string),
       pb_abs (path_of_string ps) = true ->
       strip_prefix (path_of_string ps) (path_of_string cs) = Some rel ->
       resolve_skill_central_path path_exists
         (to_relative_central_path (path_of_string ps) (path_of_string cs))
         (path_of_string cs)
       = path_of_string ps) /\
  to_relative_central_path (path_of_string "/data/skills/C:/foo")
    (path_of_string "/data/skills") = "C:/foo" /\
  resolve_skill_central_path (fun _ => false) "C:/foo" (path_of_string "/data/skills")
    = path_of_string "/data/skills/foo" /\
  to_relative_central_path (path_of_string "/data/skills/x\y")
    (path_of_string "/data/skills") = "x/y" /\
  resolve_skill_central_path (fun _ => false) "x/y" (path_of_string "/data/skills")
    = path_of_string "/data/skills/x/y" /\
  path_of_string "/data/skills/x/y" <> path_of_string "/data/skills/x\y".
Proof.
  split; [|vm_compute; repeat split; discriminate].
  intros H.
  specialize (H (fun _ => false) "/data/skills/C:/foo" "/data/skills"
                ["C:"; "foo"] eq_refl eq_refl).
  vm_compute in H. discriminate H.
Qed.


End PathFacts.

(* ------------------------------------------------------------------ *)
(** ** JSON deep merge and cleaning *)

Module JsonFacts.
Import JsonMerge.

Lemma assoc_set_same k v m : assoc_get k m = Some v -> assoc_set k v m = m.
Proof.
  induction m as [|[k' v'] m IH]; simpl; [discriminate|].
  destruct (String.eqb k k') eqn:Hk.
  - intros H. injection H as ->. reflexivity.
  - intros H. rewrite (IH H). reflexivity.
Qed.

Lemma assoc_get_in k v m :
  NoDup (map fst m) -> In (k, v) m -> assoc_get k m = Some v.
Proof.
  induction m as [|[k' v'] m IH]; simpl; [contradiction|].
  intros Hnd Hin. inversion Hnd as [|? ? Hnotin Hnd']; subst.
  destruct Hin as [Heq|Hin].
  - injection Heq as -> ->. rewrite String.eqb_refl. reflexivity.
  - destruct (String.eqb_spec k k') as [->|Hne].
    + exfalso. apply Hnotin. apply list_elem_of_In, in_map_iff.
      exists (k', v). auto.
    + apply IH; assumption.
Qed.

Lemma merge_entries_self b o :
  (forall k v, In (k, v) o -> assoc_get k b = Some v /\ deep_merge_json v v = v) ->
  merge_entries deep_merge_json b o = b.
Proof.
  revert b. induction o as [|[k v] o IH]; intros b H; simpl; [reflexivity|].
  destruct (H k v (or_introl eq_refl)) as [Hget Hself].
  rewrite Hget. rewrite Hself.
  rewrite assoc_set_same by exact Hget.
  destruct (json_is_object v && json_is_object v); apply IH; intros; apply H; right; assumption.
Qed.

Lemma deep_merge_json_self x : json_wf x -> deep_merge_json x x = x.
Proof.
  induction x as [| | | |l _|m IH] using json_nested_ind; intros Hwf;
    try reflexivity.
  inversion Hwf as [| | | | |? Hnd Hall]; subst.
  simpl. f_equal. apply merge_entries_self.
  intros k v Hin. split.
  - apply assoc_get_in; assumption.
  - rewrite List.Forall_forall in IH, Hall.
    apply (IH (k, v) Hin). exact (Hall (k, v) Hin).
Qed.

Lemma deep_merge_json_empty_overlay y : deep_merge_json y (JObject []) = y.
Proof. destruct y; reflexivity. Qed.

Lemma retain_entries_pruned m :
  Forall (fun kv => pruned (clean_empty_values kv.2)) m ->
  pruned_entries pruned (retain_entries clean_empty_values m).
Proof.
  induction 1 as [|[k v] m Hv _ IH]; simpl; [exact I|].
  simpl in Hv.
  destruct (clean_empty_values v) as [| | | | l | [|kv m0]] eqn:Hc; simpl;
    try (split; [|exact IH]; repeat split; try discriminate; exact Hv);
    exact IH.
Qed.

Lemma clean_empty_values_pruned x : pruned (clean_empty_values x).
Proof.
  induction x as [| | | | l _|m IH] using json_nested_ind; try exact I.
  simpl. apply retain_entries_pruned. exact IH.
Qed.

Lemma clean_keeps_arrays m k l :
  In (k, JArray l) m ->
  In (k, JArray l) (json_entries (clean_empty_values (JObject m))).
Proof.
  simpl. induction m as [|[k' v] m IH]; simpl; [contradiction|].
  intros [Heq|Hin].
  - injection Heq as -> ->. simpl. left. reflexivity.
  - destruct (_ && _); [right|]; apply IH; exact Hin.
Qed.

(** C9. Merging the empty mapping into a cleaned value changes nothing;
    merging a well-formed JSON value (distinct keys in every mapping, as
    in any [serde_json::Value]) with itself gives it back; cleaning leaves
    no null or empty mapping in any mapping reachable through mappings, and
    keeps entries whose value is a sequence, even an empty one. *)
Theorem deep_merge_clean_laws :
  (forall x, deep_merge_json (clean_empty_values x) (JObject []) = clean_empty_values x) /\
  (forall x, json_wf x -> deep_merge_json x x = x) /\
  (forall x, pruned (clean_empty_values x)) /\
  (forall m k l, In (k, JArray l) m ->
     In (k, JArray l) (json_entries (clean_empty_values (JObject m)))).
Proof.
  split; [intros x; apply deep_merge_json_empty_overlay|].
  split; [exact deep_merge_json_self|].
  split; [exact clean_empty_values_pruned|].
  exact clean_keeps_arrays.
Qed.

End JsonFacts.

(* ------------------------------------------------------------------ *)
(** ** Listing *)

Module ListFacts.

Lemma insert_by_key_perm x l : Permutation (insert_by_key x l) (x :: l).
Proof.
  induction l as [|y l IH]; simpl; [reflexivity|].
  destruct (Z.leb (sort_key x) (sort_key y)); [reflexivity|].
  etransitivity; [apply perm_skip, IH | apply perm_swap].
Qed.

Lemma sort_by_key_perm l : Permutation (sort_by_key l) l.
Proof.
  induction l as [|x l IH]; simpl; [reflexivity|].
  etransitivity; [apply insert_by_key_perm | apply perm_skip, IH].
Qed.

Lemma insert_by_key_hd y x l :
  key_le y x -> HdRel key_le y l -> HdRel key_le y (insert_by_key x l).
Proof.
  intros Hyx Hl. destruct l as [|z l]; simpl.
  - constructor. exact Hyx.
  - destruct (Z.leb (sort_key x) (sort_key z)); constructor; [exact Hyx|].
    inversion Hl; assumption.
Qed.

Lemma insert_by_key_sorted x l : Sorted key_le l -> Sorted key_le (insert_by_key x l).
Proof.
  induction l as [|y l IH]; simpl; intros H.
  - repeat constructor.
  - inversion H as [|? ? Hl Hhd]; subst.
    destruct (Z.leb_spec (sort_key x) (sort_key y)) as [Hle|Hlt].
    + constructor; [exact H | constructor; exact Hle].
    + constructor; [apply IH, Hl|].
      apply insert_by_key_hd; [unfold key_le; lia | exact Hhd].
Qed.

Lemma sort_by_key_sorted l : Sorted key_le (sort_by_key l).
Proof.
  induction l as [|x l IH]; simpl; [constructor | apply insert_by_key_sorted, IH].
Qed.

(** C8. [list_codex_providers] returns the stored profiles ordered by sort
    index ascending, a missing index counting as 0; when the rows fail to
    deserialize it returns the empty list rather than an error. *)
Theorem list_codex_providers_order (env : Env) (w : World) :
  (forall msg, env_db env QSelectAll = QDecodeErr msg ->
     fst (list_codex_providers env w) = Ok []) /\
  (env_db env QSelectAll = QOk ->
     exists l, fst (list_codex_providers env w) = Ok l /\
       Permutation l (map snd (map_to_list (w_store w))) /\
       Sorted (fun p q => (default 0 (sort_index p) <= default 0 (sort_index q))%Z) l).
Proof.
  unfold list_codex_providers, db_take, db_call, bind, log, modify, get_env,
    get_world, ret, fail. simpl.
  split.
  - intros msg H. rewrite H. reflexivity.
  - intros H. rewrite H. eexists. split; [reflexivity|]. split.
    + apply sort_by_key_perm.
    + apply sort_by_key_sorted.
Qed.

End ListFacts.

(* ------------------------------------------------------------------ *)
(** ** Frame properties of the commands *)

Module Frame.

Section Preserves.
Variable R : World -> World -> Prop.
Context `{!PreOrder R}.

Lemma preserves_bind {A B} (m : M A) (k : A -> M B) :
  preserves R m -> (forall a, preserves R (k a)) -> preserves R (bind m k).
Proof.
  intros Hm Hk env w. unfold bind.
  specialize (Hm env w).
  destruct (m env w) as [[a|e] w'] eqn:E; simpl in *.
  - etransitivity; [exact Hm | apply Hk].
  - exact Hm.
Qed.

Lemma preserves_ret {A} (a : A) : preserves R (ret a).
Proof. intros env w. reflexivity. Qed.

Lemma preserves_fail {A} e : preserves R (@fail A e).
Proof. intros env w. reflexivity. Qed.

Lemma preserves_get_env : preserves R get_env.
Proof. intros env w. reflexivity. Qed.

Lemma preserves_get_world : preserves R get_world.
Proof. intros env w. reflexivity. Qed.

Lemma preserves_ignore_err (m : M unit) : preserves R m -> preserves R (ignore_err m).
Proof.
  intros Hm env w. unfold ignore_err. specialize (Hm env w).
  destruct (m env w). exact Hm.
Qed.
End Preserves.

#[export] Instance same_store_preorder : PreOrder same_store.
Proof.
  split; [intros w; reflexivity|].
  intros w1 w2 w3 H12 H23. unfold same_store in *. congruence.
Qed.

#[export] Instance trace_grows_preorder P : PreOrder (trace_grows P).
Proof.
  split.
  - intros w. exists []. split; [symmetry; apply app_nil_r | constructor].
  - intros w1 w2 w3 [t1 [H1 P1]] [t2 [H2 P2]]. exists (t1 ++ t2)%list. split.
    + rewrite H2, H1. symmetry. apply app_assoc.
    + apply Forall_app. split; assumption.
Qed.

Lemma trace_grows_log (P : Event -> Prop) e : P e -> preserves (trace_grows P) (log e).
Proof.
  intros He env w. exists [e]. split; [reflexivity | repeat constructor; exact He].
Qed.

Lemma trace_grows_set_store P t : preserves (trace_grows P) (set_store t).
Proof. intros env w. exists []. split; [symmetry; apply app_nil_r | constructor]. Qed.

Lemma trace_grows_set_files P d f : preserves (trace_grows P) (set_files d f).
Proof. intros env w. exists []. split; [symmetry; apply app_nil_r | constructor]. Qed.

Lemma same_store_log e : preserves same_store (log e).
Proof. intros env w. reflexivity. Qed.

Lemma same_store_set_files d f : preserves same_store (set_files d f).
Proof. intros env w. reflexivity. Qed.

Create HintDb frame.
#[export] Hint Resolve trace_grows_set_store trace_grows_set_files
  same_store_log same_store_set_files : frame.

(** Walk through binds and case splits; leaves the primitive calls. *)
Ltac frame_step :=
  match goal with
  | |- preserves _ (bind _ _) => apply preserves_bind; [typeclasses eauto| |intro]
  | |- preserves _ (match ?x with _ => _ end) => destruct x
  | |- preserves _ (if ?x then _ else _) => destruct x
  | |- preserves _ (let _ := _ in _) => cbv zeta
  | |- preserves _ (ignore_err _) => apply preserves_ignore_err; [typeclasses eauto|]
  | |- preserves _ (ret _) => apply preserves_ret; typeclasses eauto
  | |- preserves _ (fail _) => apply preserves_fail; typeclasses eauto
  | |- preserves _ get_env => apply preserves_get_env; typeclasses eauto
  | |- preserves _ get_world => apply preserves_get_world; typeclasses eauto
  end.

Section ApplyFrame.
Variable json_from_str : string -> result Json.
Variable json_to_string_pretty : Json -> string.
Context {TValue : Type}.
Variable toml_from_str : string -> result (gmap string TValue).
Variable toml_to_string_pretty : gmap string TValue -> result string.

Lemma apply_config_to_file_store id :
  preserves same_store
    (apply_config_to_file json_from_str json_to_string_pretty toml_from_str
       toml_to_string_pretty id).
Proof.
  unfold apply_config_to_file, write_codex_config_files, db_take, db_call,
    fs_write, fs_create_dir, get_codex_config_dir, lift, now.
  repeat (frame_step || auto with frame).
Qed.

Lemma apply_config_to_file_trace id :
  preserves (trace_grows (fun e => ~ flag_event e))
    (apply_config_to_file json_from_str json_to_string_pretty toml_from_str
       toml_to_string_pretty id).
Proof.
  unfold apply_config_to_file, write_codex_config_files, db_take, db_call,
    fs_write, fs_create_dir, get_codex_config_dir, lift, now.
  repeat (frame_step || auto with frame);
    apply trace_grows_log; unfold flag_event; intros [H|H]; discriminate H.
Qed.

End ApplyFrame.

Lemma flip_trace id ts :
  preserves (trace_grows (fun e => ~ write_event e))
    (db_reset_applied ts "Failed to reset applied status" ;;;
     db_set_applied id ts "Failed to set applied status").
Proof.
  unfold db_reset_applied, db_set_applied, db_call.
  repeat (frame_step || auto with frame);
    apply trace_grows_log; unfold write_event; intros [H|[H|H]]; discriminate H.
Qed.

End Frame.

(* ------------------------------------------------------------------ *)
(** ** Apply: files first, flags second *)

Module ApplyFacts.
Import Frame.

Lemma bind_unfold {A B} (m : M A) (k : A -> M B) env w :
  bind m k env w =
  match m env w with
  | (Ok a, w') => k a env w'
  | (Err e, w') => (Err e, w')
  end.
Proof. reflexivity. Qed.

Lemma now_bind {B} (k : string -> M B) env w : bind now k env w = k (env_now env) env w.
Proof. reflexivity. Qed.

Section Apply.
Variable json_from_str : string -> result Json.
Variable json_to_string_pretty : Json -> string.
Context {TValue : Type}.
Variable toml_from_str : string -> result (gmap string TValue).
Variable toml_to_string_pretty : gmap string TValue -> result string.

Let write := write_codex_config_files json_to_string_pretty.
Let to_file := apply_config_to_file json_from_str json_to_string_pretty
                 toml_from_str toml_to_string_pretty.
Let apply := apply_config_internal json_from_str json_to_string_pretty
               toml_from_str toml_to_string_pretty.

(** A failed directory creation or file write is an error of
    [write_codex_config_files]. *)
Lemma write_codex_config_files_fails auth cfg env w :
  (env_fs_fail env FWriteAuth <> None \/ env_fs_fail env FWriteConfig <> None \/
   (w_dir w = false /\ env_fs_fail env FCreateDir <> None)) ->
  exists e, fst (write auth cfg env w) = Err e.
Proof.
  intros Hf. subst write.
  unfold write_codex_config_files, get_codex_config_dir, fs_create_dir, fs_write,
    get_env, get_world, log, modify, set_files, ret, fail, bind. simpl.
  destruct (env_home env) as [home|]; simpl; [|eexists; reflexivity].
  destruct (w_dir w) eqn:Hd; simpl.
  - destruct (env_fs_fail env FWriteAuth) eqn:Ha; simpl; [eexists; reflexivity|].
    destruct (env_fs_fail env FWriteConfig) eqn:Hc; simpl; [eexists; reflexivity|].
    exfalso. destruct Hf as [H|[H|[H _]]]; congruence.
  - destruct (env_fs_fail env FCreateDir) eqn:Hcd; simpl; [eexists; reflexivity|].
    destruct (env_fs_fail env FWriteAuth) eqn:Ha; simpl; [eexists; reflexivity|].
    destruct (env_fs_fail env FWriteConfig) eqn:Hc; simpl; [eexists; reflexivity|].
    exfalso. destruct Hf as [H|[H|[_ H]]]; congruence.
Qed.

(** C2. [apply_config_internal]: every file-system step (directory
    creation, auth.json, config.toml) is issued before either flag update;
    when the file phase fails (a failed write or directory creation among
    its errors) the same error is returned and the table, so every applied
    flag, is unchanged. *)
Theorem apply_config_internal_write_first id env w :
  (forall e, fst (to_file id env w) = Err e ->
     apply id env w = (Err e, snd (to_file id env w)) /\
     w_store (snd (apply id env w)) = w_store w) /\
  (forall auth cfg env' w',
     (env_fs_fail env' FWriteAuth <> None \/ env_fs_fail env' FWriteConfig <> None \/
      (w_dir w' = false /\ env_fs_fail env' FCreateDir <> None)) ->
     exists e, fst (write auth cfg env' w') = Err e) /\
  (exists t1 t2,
     w_trace (snd (apply id env w)) = (w_trace w ++ t1 ++ t2)%list /\
     Forall (fun e => ~ flag_event e) t1 /\ Forall (fun e => ~ write_event e) t2).
Proof.
  pose proof (apply_config_to_file_store json_from_str json_to_string_pretty
                toml_from_str toml_to_string_pretty id env w) as Hs.
  pose proof (apply_config_to_file_trace json_from_str json_to_string_pretty
                toml_from_str toml_to_string_pretty id env w) as Ht.
  subst to_file apply. unfold apply_config_internal. rewrite bind_unfold.
  destruct (apply_config_to_file _ _ _ _ id env w) as [[u|e] w1] eqn:E1;
    simpl in Hs, Ht; destruct Ht as [t1 [Ht1 Hp1]].
  - split; [intros e H; discriminate H|].
    split; [exact (write_codex_config_files_fails)|].
    rewrite now_bind.
    destruct (flip_trace id (env_now env) env w1) as [t2 [Ht2 Hp2]].
    exists t1, t2. split; [|split; assumption].
    simpl. rewrite Ht2, Ht1. symmetry. apply app_assoc.
  - split.
    { intros e' H. injection H as ->. split; [reflexivity | exact Hs]. }
    split; [exact (write_codex_config_files_fails)|].
    exists t1, []. split; [simpl; rewrite Ht1, app_nil_r; reflexivity|].
    split; [exact Hp1 | constructor].
Qed.

End Apply.

End ApplyFacts.

(* ------------------------------------------------------------------ *)
(** ** At most one applied profile *)

Module AppliedFacts.
Import Frame ApplyFacts.

#[export] Instance store_rel_preorder P : PreOrder (store_rel P).
Proof. split; [intros w H; exact H | intros w1 w2 w3 H12 H23 H; auto]. Qed.

Lemma store_rel_of_same P {A} (m : M A) :
  preserves same_store m -> preserves (store_rel P) m.
Proof. intros Hm env w H. rewrite (Hm env w). exact H. Qed.

Lemma store_rel_log P e : preserves (store_rel P) (log e).
Proof. apply store_rel_of_same, same_store_log. Qed.

Lemma store_rel_set_files P d f : preserves (store_rel P) (set_files d f).
Proof. apply store_rel_of_same, same_store_set_files. Qed.

#[export] Hint Resolve store_rel_log store_rel_set_files : frame.

Lemma lookup_delete_some k k' (t : Table) p :
  delete k t !! k' = Some p -> t !! k' = Some p.
Proof.
  rewrite lookup_delete. case_decide; [discriminate | auto].
Qed.

Lemma db_delete_rel (P : Table -> Prop) key pre :
  (forall t, P t -> P (delete key t)) -> preserves (store_rel P) (db_delete key pre).
Proof.
  intros HP env w. unfold db_delete, db_call, bind, log, modify, get_env,
    get_world, set_store, ret, fail, store_rel. simpl.
  destruct (env_db env QDelete); simpl; auto.
Qed.

Lemma db_create_rel (P : Table -> Prop) key p pre :
  (forall t, t !! key = None -> P t -> P (<[key := p]> t)) ->
  preserves (store_rel P) (db_create key p pre).
Proof.
  intros HP env w. unfold db_create, db_call, bind, log, modify, get_env,
    get_world, set_store, ret, fail, store_rel. simpl.
  destruct (env_db env QCreate); simpl;
    destruct (w_store w !! key) eqn:Hk; simpl; auto.
Qed.

Lemma store_ok_delete key t : store_ok t -> store_ok (delete key t).
Proof.
  intros [Hk Ha]. split.
  - intros k p H. apply lookup_delete_some in H. eauto.
  - intros k1 k2 p1 p2 H1 H2. apply lookup_delete_some in H1, H2. eauto.
Qed.

Lemma store_ok_insert key p t :
  provider_id p = key -> t !! key = None ->
  (is_applied p = false \/
   (forall k q, t !! k = Some q -> is_applied q = true -> k = key)) ->
  store_ok t -> store_ok (<[key := p]> t).
Proof.
  intros Hid Hnone Hsafe [Hk Ha]. split.
  - intros k q H. rewrite lookup_insert in H. case_decide as Heq.
    + injection H as <-. subst. reflexivity.
    + eauto.
  - intros k1 k2 p1 p2 H1 H2 A1 A2.
    rewrite lookup_insert in H1, H2.
    destruct (decide (key = k1)) as [E1|E1];
      destruct (decide (key = k2)) as [E2|E2]; try subst k1; try subst k2; try reflexivity.
    + injection H1 as <-. destruct Hsafe as [Hf|Hs]; [congruence|].
      symmetry. eauto.
    + injection H2 as <-. destruct Hsafe as [Hf|Hs]; [congruence|]. eauto.
    + eauto.
Qed.

Lemma flag_one_applied id ts ts' q :
  is_applied (flag_one id ts (set_applied false ts' q)) = true ->
  provider_id q = id.
Proof.
  unfold flag_one. simpl. case_decide as D; simpl; [intros; exact D | discriminate].
Qed.

Lemma flag_one_id id ts ts' q :
  provider_id (flag_one id ts (set_applied false ts' q)) = provider_id q.
Proof. unfold flag_one. case_decide; reflexivity. Qed.

(** The two-step flag flip keeps the invariant whatever its outcome. *)
Lemma flip_rel id ts pre1 pre2 :
  preserves (store_rel store_ok)
    (db_reset_applied ts pre1 ;;; db_set_applied id ts pre2).
Proof.
  intros env w. unfold db_reset_applied, db_set_applied, db_call, bind, log,
    modify, get_env, get_world, set_store, ret, fail, store_rel. simpl.
  intros [Hk Ha].
  assert (Hreset : store_ok (set_applied false ts <$> w_store w)).
  { split.
    - intros k p H. rewrite lookup_fmap in H.
      destruct (w_store w !! k) eqn:E; [|discriminate].
      injection H as <-. simpl. eauto.
    - intros k1 k2 p1 p2 H1 H2 A1 A2. rewrite lookup_fmap in H1.
      destruct (w_store w !! k1); [|discriminate].
      injection H1 as <-. discriminate A1. }
  destruct (env_db env QResetApplied); simpl; try (split; assumption);
  destruct (env_db env QSetApplied); simpl; try exact Hreset;
  change (fun p => if decide (provider_id p = id) then set_applied true ts p else p)
    with (flag_one id ts);
  (split;
   [ intros k p H; rewrite !lookup_fmap in H;
     destruct (w_store w !! k) as [q|] eqn:E; [|discriminate];
     injection H as <-; rewrite flag_one_id; eauto
   | intros k1 k2 p1 p2 H1 H2 A1 A2; rewrite !lookup_fmap in H1, H2;
     destruct (w_store w !! k1) as [q1|] eqn:E1; [|discriminate];
     destruct (w_store w !! k2) as [q2|] eqn:E2; [|discriminate];
     injection H1 as <-; injection H2 as <-;
     apply flag_one_applied in A1, A2;
     rewrite <- (Hk k1 q1 E1), <- (Hk k2 q2 E2); congruence ]).
Qed.

Lemma store_ok_empty : store_ok (∅ : Table).
Proof.
  split; intros k; [intros p H | intros k2 p1 p2 H]; rewrite lookup_empty in H;
    discriminate H.
Qed.

Lemma two_applied_not_one (t : Table) k1 k2 p1 p2 :
  k1 <> k2 -> t !! k1 = Some p1 -> t !! k2 = Some p2 ->
  is_applied p1 = true -> is_applied p2 = true -> ~ at_most_one_applied t.
Proof. intros Hne H1 H2 A1 A2 H. apply Hne. eapply H; eauto. Qed.

Section OpFacts.
Variable json_from_str : string -> result Json.
Variable json_to_string_pretty : Json -> string.
Context {TValue : Type}.
Variable toml_from_str : string -> result (gmap string TValue).
Variable toml_to_string_pretty : gmap string TValue -> result string.

Lemma create_ok input :
  preserves (store_rel store_ok) (create_codex_provider input).
Proof.
  unfold create_codex_provider, db_take, db_call, now.
  repeat (frame_step || auto with frame).
  all: apply db_create_rel; intros t Hnone Hok; apply store_ok_insert; auto.
Qed.

Lemma select_ok id : preserves (store_rel store_ok) (select_codex_provider id).
Proof.
  unfold select_codex_provider. apply preserves_bind; [typeclasses eauto | |].
  - unfold now. repeat (frame_step || auto with frame).
  - intros ts. apply flip_rel.
Qed.

Lemma apply_ok id :
  preserves (store_rel store_ok)
    (apply_config_internal json_from_str json_to_string_pretty toml_from_str
       toml_to_string_pretty id).
Proof.
  unfold apply_config_internal. apply preserves_bind; [typeclasses eauto | |].
  - apply store_rel_of_same, apply_config_to_file_store.
  - intros _. apply preserves_bind; [typeclasses eauto | |].
    + unfold now. repeat (frame_step || auto with frame).
    + intros ts. apply flip_rel.
Qed.

Lemma update_ok p :
  preserves (store_rel (fun t => store_ok t /\ update_keeps_one t p))
    (update_codex_provider json_from_str json_to_string_pretty toml_from_str
       toml_to_string_pretty p).
Proof.
  unfold update_codex_provider, db_take, db_call, now.
  repeat (frame_step || auto with frame).
  - apply db_delete_rel. intros t [Hok Hs]. split; [apply store_ok_delete, Hok|].
    destruct Hs as [Hs|Hs]; [left; exact Hs | right].
    intros k q H. apply lookup_delete_some in H. eauto.
  - apply db_create_rel. intros t Hnone [Hok Hs]. split.
    + apply store_ok_insert; auto.
    + destruct Hs as [Hs|Hs]; [left; exact Hs | right].
      intros k q H A. rewrite lookup_insert in H.
      destruct (decide (provider_id p = k)) as [E|E]; [symmetry; exact E | eauto].
  - apply store_rel_of_same, preserves_ignore_err.
    apply apply_config_to_file_store.
Qed.

Lemma snd_bind_ret {A B} (m : M A) (b : B) env w :
  snd ((m ;;; ret b) env w) = snd (m env w).
Proof. unfold bind, ret. destruct (m env w) as [[a|e] w']; reflexivity. Qed.

Lemma run_op_ok o env w :
  store_ok (w_store w) ->
  match o with OpUpdate p => update_keeps_one (w_store w) p | _ => True end ->
  store_ok (w_store (snd (run_op json_from_str json_to_string_pretty
                            toml_from_str toml_to_string_pretty o env w))).
Proof.
  intros Hok Hs. destruct o as [input|id|id|p]; simpl.
  - rewrite snd_bind_ret. apply create_ok. exact Hok.
  - apply select_ok. exact Hok.
  - apply apply_ok. exact Hok.
  - rewrite snd_bind_ret. apply (update_ok p env w (conj Hok Hs)).
Qed.

(** C1 (amended). Starting from a table whose records sit under their own
    ids and with at most one applied profile, any sequence of create,
    select, apply and update calls (each with any outcome) keeps at most
    one applied profile, provided every update either carries
    [is_applied = false] or targets the profile that is applied at that
    point: update copies the flag from its input. *)
Theorem applied_at_most_one_invariant ops w :
  store_ok (w_store w) -> ops_safe json_from_str json_to_string_pretty
                            toml_from_str toml_to_string_pretty ops w ->
  store_ok (w_store (snd (run_ops json_from_str json_to_string_pretty
                            toml_from_str toml_to_string_pretty ops w))).
Proof.
  revert w. induction ops as [|[o env] rest IH]; intros w Hok Hsafe; simpl.
  - exact Hok.
  - simpl in Hsafe. destruct Hsafe as [Ho Hrest].
    pose proof (run_op_ok o env w Hok Ho) as Hok1.
    destruct (run_op json_from_str json_to_string_pretty toml_from_str
                toml_to_string_pretty o env w) as [r w1] eqn:E.
    simpl in Hok1, Hrest.
    destruct (run_ops json_from_str json_to_string_pretty toml_from_str
                toml_to_string_pretty rest w1) as [rs w2] eqn:E2.
    simpl. specialize (IH w1 Hok1 Hrest). rewrite E2 in IH. exact IH.
Qed.

End OpFacts.

Lemma not_one_of_check (t : Table) k1 k2 :
  k1 <> k2 ->
  match t !! k1, t !! k2 with
  | Some p1, Some p2 => is_applied p1 && is_applied p2
  | _, _ => false
  end = true -> ~ at_most_one_applied t.
Proof.
  intros Hne Hc. destruct (t !! k1) as [p1|] eqn:E1; [|discriminate].
  destruct (t !! k2) as [p2|] eqn:E2; [|discriminate].
  apply andb_true_iff in Hc as [A1 A2].
  exact (two_applied_not_one t k1 k2 p1 p2 Hne E1 E2 A1 A2).
Qed.

Lemma applied_at_most_one_invariant_witness :
  ops_safe json_ok json_print toml_ok toml_print safe_ops empty_world /\
  store_ok (w_store (snd (run_sample safe_ops))).
Proof.
  split.
  - vm_compute. repeat split. left. reflexivity.
  - apply (applied_at_most_one_invariant json_ok json_print toml_ok toml_print).
    + exact store_ok_empty.
    + vm_compute. repeat split. left. reflexivity.
Defined.

(** C1 counterexample: three calls that all return [Ok], after which two
    profiles are applied. *)
Lemma update_sets_second_applied :
  fst (run_sample two_applied_ops) = [Ok tt; Ok tt; Ok tt] /\
  ~ at_most_one_applied (w_store (snd (run_sample two_applied_ops))).
Proof.
  split.
  - vm_compute. reflexivity.
  - apply (not_one_of_check _ "a" "b"); [discriminate | vm_compute; reflexivity].
Qed.

End AppliedFacts.

(* ------------------------------------------------------------------ *)
(** ** Create, update and the first-run import *)

Module CommandFacts.
Import Frame ApplyFacts.

(** Case on the outcome of every query, file step and table lookup. *)
Ltac split_matches :=
  repeat (simpl; rewrite ?lookup_delete_eq; match goal with
         | |- context [match ?x with _ => _ end] =>
             lazymatch x with
             | env_db _ _ => destruct x eqn:?
             | env_fs_fail _ _ => destruct x eqn:?
             | env_home _ => destruct x eqn:?
             | _ !! _ => destruct x eqn:?
             | rows_by_id _ _ => destruct x eqn:?
             end
         | |- context [if ?x then _ else _] =>
             lazymatch x with
             | String.eqb _ _ => destruct x eqn:?
             | negb ?y => destruct y eqn:?
             | is_applied _ => destruct x eqn:?
             end
         end); simpl; rewrite ?lookup_delete_eq; simpl.

(** C10. The duplicate-id error of [create_codex_provider] is returned
    exactly when the existence query succeeds and yields a row; when its
    rows fail to decode, the record is created anyway. *)
Theorem create_codex_provider_duplicate_check input env w :
  (fst (create_codex_provider input env w) =
     Err ("Codex provider with ID '" ++ in_id input ++ "' already exists") <->
   env_db env QSelectById = QOk /\ rows_by_id (in_id input) (w_store w) <> []) /\
  (forall msg, env_db env QSelectById = QDecodeErr msg ->
   (forall m, env_db env QCreate <> QErr m) ->
   fst (create_codex_provider input env w) = Ok (content_of_input input (env_now env)) /\
   w_store (snd (create_codex_provider input env w)) =
     match w_store w !! in_id input with
     | Some _ => w_store w
     | None => <[in_id input := content_of_input input (env_now env)]> (w_store w)
     end).
Proof.
  unfold create_codex_provider, db_create, db_take, db_call, now, bind, ret,
    fail, log, modify, get_env, get_world, set_store. simpl.
  split_matches.
  all: split;
    [ split;
      [ intros H; first [ discriminate H | split; [reflexivity | discriminate] ]
      | intros [H1 H2]; first [ discriminate H1 | reflexivity | congruence ] ]
    | intros msg' Hm Hc;
      first [ discriminate Hm
            | exfalso; eapply Hc; reflexivity
            | split; reflexivity ] ].
Qed.

Section Update.
Variable json_from_str : string -> result Json.
Variable json_to_string_pretty : Json -> string.
Context {TValue : Type}.
Variable toml_from_str : string -> result (gmap string TValue).
Variable toml_to_string_pretty : gmap string TValue -> result string.

Let update := update_codex_provider json_from_str json_to_string_pretty
                toml_from_str toml_to_string_pretty.

(** C6 (amended). [update_codex_provider] answers "Provider not found"
    exactly when the input's [created_at] is empty and the existence query
    finds no row or its rows fail to decode; a non-empty [created_at] is
    taken as is, with no check that the profile exists. On success the
    table maps the id to the returned record, whose [created_at] is the
    input's when non-empty and the existing row's otherwise, and whose
    [updated_at] is now. *)
Theorem update_codex_provider_not_found_and_times p env w :
  (fst (update p env w) = Err "Provider not found" <->
   created_at p = "" /\
   ((exists m, env_db env QSelectById = QDecodeErr m) \/
    (env_db env QSelectById = QOk /\ rows_by_id (provider_id p) (w_store w) = []))) /\
  (forall q, fst (update p env w) = Ok q ->
   w_store (snd (update p env w)) =
     <[provider_id p := q]> (delete (provider_id p) (w_store w)) /\
   (created_at p <> "" -> q = with_times p (created_at p) (env_now env)) /\
   (created_at p = "" ->
    exists e rest, env_db env QSelectById = QOk /\
      rows_by_id (provider_id p) (w_store w) = e :: rest /\
      q = with_times p (created_at e) (env_now env))).
Proof.
  subst update.
  unfold update_codex_provider, db_create, db_delete, db_take, db_call, now,
    bind, ret, fail, log, modify, get_env, get_world, set_store. simpl.
  split_matches.
  all: try match goal with
       | |- context [ignore_err (apply_config_to_file ?a ?b ?c ?d ?i) ?e ?W] =>
           pose proof (apply_config_to_file_store a b c d i e W) as HS;
           unfold ignore_err;
           destruct (apply_config_to_file a b c d i e W) as [r5 w5];
           simpl in HS |- *
       end.
  all: repeat match goal with
       | H : String.eqb _ _ = true |- _ => apply String.eqb_eq in H
       | H : String.eqb _ _ = false |- _ => apply String.eqb_neq in H
       end.
  all: try solve [split;
    [ split;
      [ intros H;
        first [ discriminate H
              | split; [assumption | first [ left; eexists; reflexivity
                                          | right; split; reflexivity ] ] ]
      | intros [Hc Hx];
        first [ reflexivity | congruence
              | destruct Hx as [[m Hm]|[Hm Hr]]; congruence ] ]
    | intros q H;
      first
        [ discriminate H
        | injection H as <-;
          split; [ first [ reflexivity | rewrite HS; reflexivity ] |];
          split; [ intros Hn; first [ reflexivity | congruence ] |];
          intros Hc;
          first [ congruence
                | do 2 eexists; split; [reflexivity | split; reflexivity] ] ] ]].
Qed.

End Update.

Section Init.
Variable json_from_str : string -> result Json.
Variable json_to_string : Json -> string.

Let init := init_codex_provider_from_settings json_from_str json_to_string.

Lemma init_codex_provider_import_main env w :
  (env_db env QCount = QOk -> size (w_store w) <> 0 ->
   fst (init env w) = Ok tt /\ w_store (snd (init env w)) = w_store w) /\
  (forall home s a,
   w_store w = ∅ -> (forall m, env_db env QCount <> QErr m) ->
   env_home env = Some home ->
   w_files w !! (path_join (path_join home ".codex") "auth.json") = Some s ->
   env_fs_fail env FReadAuth = None -> json_from_str s = Ok a ->
   (forall m, env_db env QCreate <> QErr m) ->
   fst (init env w) = Ok tt /\
   exists q, w_store (snd (init env w)) = {[default_config_id := q]} /\
     provider_id q = default_config_id /\ sort_index q = Some 0%Z /\
     is_applied q = true) /\
  (forall m home s a,
   env_db env QCount = QDecodeErr m ->
   env_home env = Some home ->
   w_files w !! (path_join (path_join home ".codex") "auth.json") = Some s ->
   env_fs_fail env FReadAuth = None -> json_from_str s = Ok a ->
   (forall m', env_db env QCreate <> QErr m') ->
   fst (init env w) = Ok tt /\
   (is_Some (w_store w !! default_config_id) ->
    w_store (snd (init env w)) = w_store w) /\
   (w_store w !! default_config_id = None ->
    exists q, w_store (snd (init env w)) = <[default_config_id := q]> (w_store w) /\
      provider_id q = default_config_id /\ sort_index q = Some 0%Z /\
      is_applied q = true)).
Proof.
  subst init.
  unfold init_codex_provider_from_settings, file_exists, fs_read,
    get_codex_config_dir, lift, db_create, db_take, db_call, now, bind, ret,
    fail, log, modify, get_env, get_world, set_store. simpl.
  split; [|split].
  - intros Hc Hn. rewrite Hc. simpl.
    match goal with |- context [Z.ltb 0 ?n] =>
      replace (Z.ltb 0 n) with true by (symmetry; apply Z.ltb_lt; lia) end.
    simpl. split; reflexivity.
  - intros home s a He Hc Hh Hf Hr Hj Hcr.
    assert (Hs : size (w_store w) = 0) by (rewrite He; apply map_size_empty).
    destruct (env_db env QCount) as [|m|m] eqn:Ecount;
      [| | exfalso; eapply Hc; reflexivity].
    all: match goal with
         | |- context [Z.ltb 0 ?n] =>
             destruct (Z.ltb 0 n) eqn:Hlt;
             [rewrite He in Hlt; vm_compute in Hlt; discriminate Hlt|]
         | _ => idtac
         end.
    all: simpl; rewrite Hh; simpl; rewrite ?Hf; simpl; rewrite Hr; simpl;
      rewrite Hf; simpl; rewrite Hj; simpl.
    all: repeat (simpl; match goal with
         | |- context [match ?x with _ => _ end] =>
             lazymatch x with
             | env_fs_fail _ _ => destruct x eqn:?
             | env_db _ _ => destruct x eqn:?
             | w_files _ !! _ => destruct x eqn:?
             end
         | |- context [if bool_decide ?P then _ else _] => destruct (bool_decide P)
         end).
    all: simpl; try (exfalso; eapply Hcr; reflexivity).
    all: rewrite He, lookup_empty; simpl.
    all: split; [reflexivity|].
    all: eexists; split; [apply insert_empty | repeat split].
  - intros m home s a Hd Hh Hf Hr Hj Hcr.
    rewrite Hd. simpl. rewrite Hh. simpl. rewrite Hf. simpl. rewrite Hr. simpl.
    rewrite Hf. simpl. rewrite Hj. simpl.
    all: repeat (simpl; match goal with
         | |- context [match ?x with _ => _ end] =>
             lazymatch x with
             | env_fs_fail _ _ => destruct x eqn:?
             | env_db _ _ => destruct x eqn:?
             | w_files _ !! _ => destruct x eqn:?
             | w_store _ !! _ => destruct x eqn:?
             end
         | |- context [if bool_decide ?P then _ else _] => destruct (bool_decide P)
         end).
    all: simpl; try (exfalso; eapply Hcr; reflexivity).
    all: split; [reflexivity|].
    all: split; intros Hk;
      [ first [ reflexivity | destruct Hk as [? Hk]; congruence ]
      | first [ congruence | eexists; split; [reflexivity | repeat split] ] ].
Qed.


Lemma init_codex_provider_auth_errors env w :
  forall home,
  (forall m, env_db env QCount <> QErr m) ->
  (env_db env QCount = QOk -> size (w_store w) = 0) ->
  env_home env = Some home ->
  is_Some (w_files w !! path_join (path_join home ".codex") "auth.json") ->
  (forall e, env_fs_fail env FReadAuth = Some e ->
   fst (init env w) = Err ("Failed to read auth.json: " ++ e) /\
   w_store (snd (init env w)) = w_store w) /\
  (forall s e, w_files w !! path_join (path_join home ".codex") "auth.json" = Some s ->
   env_fs_fail env FReadAuth = None -> json_from_str s = Err e ->
   fst (init env w) = Err ("Failed to parse auth.json: " ++ e) /\
   w_store (snd (init env w)) = w_store w).
Proof.
  intros home Hc Hn Hh Hex. subst init.
  unfold init_codex_provider_from_settings, file_exists, fs_read,
    get_codex_config_dir, lift, db_create, db_take, db_call, now, bind, ret,
    fail, log, modify, get_env, get_world, set_store. simpl.
  destruct (env_db env QCount) as [|m|m] eqn:Ecount;
    [| | exfalso; eapply Hc; reflexivity].
  all: try (replace (Z.ltb 0 (Z.of_nat (size (w_store w)))) with false
              by (rewrite (Hn eq_refl); reflexivity)).
  all: simpl; rewrite Hh; simpl.
  all: rewrite (bool_decide_true _ Hex); simpl.
  all: split; [intros e He; rewrite He; split; reflexivity|].
  all: intros s e Hs Hr Hj; rewrite Hr; simpl; rewrite Hs; simpl; rewrite Hj;
    split; reflexivity.
Qed.

(** C7 (amended). When the count query decodes and the table is not
    empty, the import returns [Ok] and leaves the table as it was. When the
    table is empty, the count query does not fail, auth.json exists, can be
    read and parses, and the store call succeeds, the import returns [Ok]
    and the table holds exactly one profile, "default-config", with
    [sort_index = Some 0] and [is_applied = true]. A count whose rows fail
    to decode is taken as an empty table: under the same conditions the
    import inserts "default-config" unless that key is already present.
    When the table is taken as empty and auth.json exists but cannot be
    read or does not parse, the import returns that error (prefixed with
    "Failed to read auth.json" or "Failed to parse auth.json") and the
    table is unchanged. *)
Theorem init_codex_provider_import env w :
  ((env_db env QCount = QOk -> size (w_store w) <> 0 ->
    fst (init env w) = Ok tt /\ w_store (snd (init env w)) = w_store w) /\
   (forall home s a,
    w_store w = ∅ -> (forall m, env_db env QCount <> QErr m) ->
    env_home env = Some home ->
    w_files w !! (path_join (path_join home ".codex") "auth.json") = Some s ->
    env_fs_fail env FReadAuth = None -> json_from_str s = Ok a ->
    (forall m, env_db env QCreate <> QErr m) ->
    fst (init env w) = Ok tt /\
    exists q, w_store (snd (init env w)) = {[default_config_id := q]} /\
      provider_id q = default_config_id /\ sort_index q = Some 0%Z /\
      is_applied q = true) /\
   (forall m home s a,
    env_db env QCount = QDecodeErr m ->
    env_home env = Some home ->
    w_files w !! (path_join (path_join home ".codex") "auth.json") = Some s ->
    env_fs_fail env FReadAuth = None -> json_from_str s = Ok a ->
    (forall m', env_db env QCreate <> QErr m') ->
    fst (init env w) = Ok tt /\
    (is_Some (w_store w !! default_config_id) ->
     w_store (snd (init env w)) = w_store w) /\
    (w_store w !! default_config_id = None ->
     exists q, w_store (snd (init env w)) = <[default_config_id := q]> (w_store w) /\
       provider_id q = default_config_id /\ sort_index q = Some 0%Z /\
       is_applied q = true))) /\
  (forall home,
   (forall m, env_db env QCount <> QErr m) ->
   (env_db env QCount = QOk -> size (w_store w) = 0) ->
   env_home env = Some home ->
   is_Some (w_files w !! path_join (path_join home ".codex") "auth.json") ->
   (forall e, env_fs_fail env FReadAuth = Some e ->
    fst (init env w) = Err ("Failed to read auth.json: " ++ e) /\
    w_store (snd (init env w)) = w_store w) /\
   (forall s e, w_files w !! path_join (path_join home ".codex") "auth.json" = Some s ->
    env_fs_fail env FReadAuth = None -> json_from_str s = Err e ->
    fst (init env w) = Err ("Failed to parse auth.json: " ++ e) /\
    w_store (snd (init env w)) = w_store w)).
Proof.
  split; [apply init_codex_provider_import_main | apply init_codex_provider_auth_errors].
Qed.

End Init.

Import AppliedFacts.

(** C6 counterexample: no profile "x" exists, yet an update carrying a
    non-empty [created_at] succeeds and creates it. *)
Lemma update_missing_profile_succeeds :
  w_store empty_world !! "x" = None /\
  fst (update_codex_provider json_ok json_print toml_ok toml_print
         (sample_provider "x" false) ok_env empty_world) =
    Ok (sample_provider "x" false) /\
  w_store (snd (update_codex_provider json_ok json_print toml_ok toml_print
                  (sample_provider "x" false) ok_env empty_world)) !! "x" =
    Some (sample_provider "x" false).
Proof. vm_compute. repeat split. Qed.

(** C7 counterexample: the table is empty and auth.json exists, but it
    does not parse, so the import fails and creates no profile. *)
Lemma init_malformed_auth_no_import :
  fst (init_codex_provider_from_settings json_strict (fun _ => "{}")
         ok_env legacy_world) =
    Err "Failed to parse auth.json: expected value" /\
  w_store (snd (init_codex_provider_from_settings json_strict (fun _ => "{}")
                  ok_env legacy_world)) = ∅.
Proof. vm_compute. split; reflexivity. Qed.

End CommandFacts.

(* ------------------------------------------------------------------ *)
(** ** Select, delete and reorder *)

Module StoreFacts.
Import Frame ApplyFacts AppliedFacts.

(** [select_codex_provider]: when both updates succeed, the flag of every
    record is whether its [provider_id] is the selected id, and every
    [updated_at] is now; a failed reset changes nothing; a failed second
    update leaves every flag cleared. *)
Theorem select_codex_provider_flags id env w :
  (fst (select_codex_provider id env w) = Ok tt ->
   w_store (snd (select_codex_provider id env w)) =
     (fun p => set_applied (bool_decide (provider_id p = id)) (env_now env) p)
       <$> w_store w) /\
  (forall m, env_db env QResetApplied = QErr m ->
   fst (select_codex_provider id env w) = Err ("Failed to reset applied status: " ++ m) /\
   w_store (snd (select_codex_provider id env w)) = w_store w) /\
  (forall m, (forall m', env_db env QResetApplied <> QErr m') ->
   env_db env QSetApplied = QErr m ->
   fst (select_codex_provider id env w) = Err ("Failed to set applied status: " ++ m) /\
   w_store (snd (select_codex_provider id env w)) =
     set_applied false (env_now env) <$> w_store w).
Proof.
  unfold select_codex_provider, db_reset_applied, db_set_applied, db_call, now,
    bind, ret, fail, log, modify, get_env, get_world, set_store. simpl.
  destruct (env_db env QResetApplied) as [|mr|mr] eqn:Er;
    destruct (env_db env QSetApplied) as [|ms|ms] eqn:Es; simpl.
  all: split; [intros H|split; [intros m H|intros m Hr H]];
    try discriminate; try (exfalso; eapply Hr; reflexivity);
    try (injection H as <-; split; reflexivity).
  all: rewrite <- map_fmap_compose; apply map_fmap_ext; intros k p _; simpl.
  all: unfold set_applied; destruct (decide (provider_id p = id)) as [E|E];
    [rewrite bool_decide_true by exact E | rewrite bool_decide_false by exact E];
    reflexivity.
Qed.


Lemma values_delete_keyed (t : Table) id p :
  keyed t -> p ∈ map snd (map_to_list (delete id t)) -> provider_id p <> id.
Proof.
  intros Hk Hin. apply list_elem_of_fmap in Hin as [[k q] [-> Hkq]].
  apply elem_of_map_to_list in Hkq. simpl.
  destruct (decide (k = id)) as [->|Hne].
  - rewrite lookup_delete_eq in Hkq. discriminate.
  - rewrite lookup_delete_ne in Hkq by congruence. rewrite (Hk _ _ Hkq). exact Hne.
Qed.

(** Deleting a profile, then listing: when every record sits under its
    own [provider_id], the list no longer shows a profile with that id,
    whatever the list query returns. *)
Theorem delete_then_list id env env' w l :
  keyed (w_store w) ->
  fst (delete_codex_provider id env w) = Ok tt ->
  fst (list_codex_providers env' (snd (delete_codex_provider id env w))) = Ok l ->
  Forall (fun p => provider_id p <> id) l.
Proof.
  intros Hk Hok Hl.
  assert (Hs : w_store (snd (delete_codex_provider id env w)) = delete id (w_store w)).
  { unfold delete_codex_provider, db_delete, db_call, bind, ret, fail, log,
      modify, get_env, get_world, set_store in *. simpl in *.
    destruct (env_db env QDelete); simpl in *; congruence. }
  revert Hl. unfold list_codex_providers, db_take, db_call, bind, ret, fail, log,
    modify, get_env, get_world. simpl. rewrite Hs.
  destruct (env_db env' QSelectAll); simpl; intros H;
    [injection H as <- | injection H as <- | discriminate H].
  - apply Forall_forall. intros p Hp.
    apply (values_delete_keyed (w_store w) id p Hk).
    apply list_elem_of_In. eapply Permutation_in; [apply ListFacts.sort_by_key_perm|apply list_elem_of_In; exact Hp].
  - constructor.
Qed.

Lemma delete_then_list_witness :
  let w := sample_world (<["a" := sample_provider "a" false]>
                           {["b" := sample_provider "b" false]}) in
  keyed (w_store w) /\
  fst (delete_codex_provider "a" ok_env w) = Ok tt /\
  fst (list_codex_providers ok_env (snd (delete_codex_provider "a" ok_env w))) =
    Ok [sample_provider "b" false] /\
  Forall (fun p => provider_id p <> "a") [sample_provider "b" false].
Proof.
  intros w.
  assert (Hk : keyed (w_store w)).
  { intros k p H. simpl in H.
    apply lookup_insert_Some in H as [[<- <-]|[_ H]]; [reflexivity|].
    apply lookup_singleton_Some in H as [<- <-]; reflexivity. }
  assert (H1 : fst (delete_codex_provider "a" ok_env w) = Ok tt)
    by (vm_compute; reflexivity).
  assert (H2 : fst (list_codex_providers ok_env (snd (delete_codex_provider "a" ok_env w))) =
                 Ok [sample_provider "b" false]) by (vm_compute; reflexivity).
  split; [exact Hk|]. split; [exact H1|]. split; [exact H2|].
  exact (delete_then_list "a" ok_env ok_env w _ Hk H1 H2).
Defined.

Lemma i32_of_nat_small n : (Z.of_nat n < 2 ^ 31)%Z -> i32_of_nat n = Z.of_nat n.
Proof.
  intros Hn. unfold i32_of_nat.
  rewrite Z.mod_small by lia.
  destruct (Z.leb_spec (2 ^ 31) (Z.of_nat n)); [lia | reflexivity].
Qed.

Lemma reorder_from_ok i ids ts env w :
  NoDup ids ->
  fst (reorder_from i ids ts env w) = Ok tt ->
  w_store (snd (reorder_from i ids ts env w)) =
    (fun p => match list_find (fun x => x = provider_id p) ids with
              | Some (j, _) => set_sort_index (i32_of_nat (i + j)) ts p
              | None => p
              end) <$> w_store w.
Proof.
  revert i w. induction ids as [|id rest IH]; intros i w Hnd H.
  - apply map_eq. intros k. rewrite lookup_fmap. simpl.
    destruct (w_store w !! k); reflexivity.
  - inversion Hnd as [|? ? Hnotin Hnd']; subst.
    revert H. simpl. unfold db_set_sort_index, db_call, bind, ret, fail, log,
      modify, get_env, get_world, set_store. simpl.
    destruct (env_db env (QSetSortIndex i)) eqn:E; simpl; intros H;
      try discriminate H.
    all: rewrite (IH (S i) _ Hnd' H); simpl.
    all: rewrite <- map_fmap_compose; apply map_fmap_ext; intros k p _; simpl.
    all: destruct (decide (provider_id p = id)) as [Hp|Hp].
    all: try (rewrite decide_True by (symmetry; exact Hp);
              assert (Hn : list_find (fun x => x = id) rest = None)
                by (apply list_find_None, Forall_forall; intros x Hx ->; exact (Hnotin Hx));
              simpl; rewrite Hp, Hn, Nat.add_0_r; reflexivity).
    all: rewrite decide_False by (intros Heq; apply Hp; symmetry; exact Heq).
    all: destruct (list_find (fun x => x = provider_id p) rest) as [[j x]|]; simpl;
      [rewrite Nat.add_succ_r|]; reflexivity.
Qed.

(** [reorder_codex_providers] with distinct ids (fewer than 2^31 of them,
    so that [index as i32] is the position): on success, the record whose
    [provider_id] stands at position [j] of the list gets [sort_index = j]
    and [updated_at = now]; records not listed are untouched. *)
Theorem reorder_codex_providers_positions ids env w :
  NoDup ids -> (Z.of_nat (length ids) <= 2 ^ 31)%Z ->
  fst (reorder_codex_providers ids env w) = Ok tt ->
  w_store (snd (reorder_codex_providers ids env w)) =
    (fun p => match list_find (fun x => x = provider_id p) ids with
              | Some (j, _) => set_sort_index (Z.of_nat j) (env_now env) p
              | None => p
              end) <$> w_store w.
Proof.
  intros Hnd Hlen. unfold reorder_codex_providers. rewrite !now_bind. intros H.
  rewrite (reorder_from_ok 0 ids (env_now env) env w Hnd H).
  apply map_fmap_ext. intros k p _.
  destruct (list_find (fun x => x = provider_id p) ids) as [[j x]|] eqn:Hf;
    [|reflexivity].
  apply list_find_Some in Hf as [Hj _]. apply lookup_lt_Some in Hj.
  simpl. rewrite i32_of_nat_small by lia. reflexivity.
Qed.

Lemma reorder_codex_providers_positions_witness :
  let w := sample_world (<["a" := sample_provider "a" false]>
                           {["b" := sample_provider "b" false]}) in
  NoDup ["b"; "a"] /\ (Z.of_nat (length ["b"; "a"]) <= 2 ^ 31)%Z /\
  fst (reorder_codex_providers ["b"; "a"] ok_env w) = Ok tt /\
  w_store (snd (reorder_codex_providers ["b"; "a"] ok_env w)) =
    (fun p => match list_find (fun x => x = provider_id p) ["b"; "a"] with
              | Some (j, _) => set_sort_index (Z.of_nat j) (env_now ok_env) p
              | None => p
              end) <$> w_store w.
Proof.
  intros w.
  assert (Hnd : NoDup ["b"; "a"]).
  { constructor; [|constructor; [|constructor]].
    - intros H. apply list_elem_of_In in H. simpl in H.
      destruct H as [H|H]; [discriminate H | exact H].
    - intros H. inversion H. }
  assert (Hl : (Z.of_nat (length ["b"; "a"]) <= 2 ^ 31)%Z) by (simpl; lia).
  assert (Ho : fst (reorder_codex_providers ["b"; "a"] ok_env w) = Ok tt)
    by (vm_compute; reflexivity).
  split; [exact Hnd|]. split; [exact Hl|]. split; [exact Ho|].
  exact (reorder_codex_providers_positions ["b"; "a"] ok_env w Hnd Hl Ho).
Defined.

Lemma reorder_from_stops i pre id post m ts env w :
  (forall j, j < length pre -> forall m', env_db env (QSetSortIndex (i + j)) <> QErr m') ->
  env_db env (QSetSortIndex (i + length pre)) = QErr m ->
  fst (reorder_from i (pre ++ id :: post) ts env w) =
    Err (("Failed to update provider " ++ id) ++ ": " ++ m) /\
  w_store (snd (reorder_from i (pre ++ id :: post) ts env w)) =
    w_store (snd (reorder_from i pre ts env w)).
Proof.
  revert i w. induction pre as [|x pre IH]; intros i w Hok Hm.
  - rewrite Nat.add_0_r in Hm. simpl.
    unfold db_set_sort_index, db_call, bind, ret, fail, log, modify, get_env,
      get_world, set_store. simpl. rewrite Hm. split; reflexivity.
  - assert (H0 : forall m', env_db env (QSetSortIndex i) <> QErr m').
    { rewrite <- (Nat.add_0_r i). apply Hok. simpl. lia. }
    simpl. unfold db_set_sort_index, db_call, bind, ret, fail, log, modify,
      get_env, get_world, set_store. simpl.
    destruct (env_db env (QSetSortIndex i)) eqn:E;
      [| | exfalso; eapply H0; reflexivity].
    all: simpl; apply IH;
      [ intros j Hj; replace (S i + j) with (i + S j) by lia; apply Hok; simpl; lia
      | replace (S i + length pre) with (i + length (x :: pre)) by (simpl; lia);
        exact Hm ].
Qed.

(** [reorder_codex_providers] stops at the first failing update: it
    returns that update's error, and the table is as after reordering only
    the ids before it (earlier updates are kept, later ones not run). *)
Theorem reorder_codex_providers_stops pre id post m env w :
  (forall j, j < length pre -> forall m', env_db env (QSetSortIndex j) <> QErr m') ->
  env_db env (QSetSortIndex (length pre)) = QErr m ->
  fst (reorder_codex_providers (pre ++ id :: post) env w) =
    Err (("Failed to update provider " ++ id) ++ ": " ++ m) /\
  w_store (snd (reorder_codex_providers (pre ++ id :: post) env w)) =
    w_store (snd (reorder_codex_providers pre env w)).
Proof.
  intros Hok Hm. unfold reorder_codex_providers. rewrite !now_bind.
  apply reorder_from_stops; assumption.
Qed.

Lemma reorder_codex_providers_stops_witness :
  let w := sample_world (<["a" := sample_provider "a" false]>
                           {["b" := sample_provider "b" false]}) in
  (forall j, j < length ["b"] ->
   forall m', env_db sort_fail_env (QSetSortIndex j) <> QErr m') /\
  env_db sort_fail_env (QSetSortIndex (length ["b"])) = QErr "locked" /\
  fst (reorder_codex_providers (["b"] ++ "a" :: []) sort_fail_env w) =
    Err (("Failed to update provider " ++ "a") ++ ": " ++ "locked") /\
  w_store (snd (reorder_codex_providers (["b"] ++ "a" :: []) sort_fail_env w)) =
    w_store (snd (reorder_codex_providers ["b"] sort_fail_env w)).
Proof.
  intros w.
  assert (Hok : forall j, j < length ["b"] ->
                forall m', env_db sort_fail_env (QSetSortIndex j) <> QErr m').
  { intros j Hj m'. simpl in Hj. assert (j = 0) as -> by lia. discriminate. }
  assert (Hm : env_db sort_fail_env (QSetSortIndex (length ["b"])) = QErr "locked")
    by reflexivity.
  split; [exact Hok|]. split; [exact Hm|].
  exact (reorder_codex_providers_stops ["b"] "a" [] "locked" sort_fail_env w Hok Hm).
Defined.

End StoreFacts.
(* ------------------------------------------------------------------ *)
(** ** Saving the common config *)

Module CommonFacts.
Import Frame ApplyFacts AppliedFacts.

#[export] Instance same_common_preorder : PreOrder same_common.
Proof.
  split; [intros w; reflexivity|].
  intros w1 w2 w3 H12 H23. unfold same_common in *. congruence.
Qed.

Lemma same_common_log e : preserves same_common (log e).
Proof. intros env w. reflexivity. Qed.

Lemma same_common_set_files d f : preserves same_common (set_files d f).
Proof. intros env w. reflexivity. Qed.

Lemma rows_applied_one (t : Table) k p :
  at_most_one_applied t -> t !! k = Some p -> is_applied p = true ->
  rows_applied t = [p].
Proof.
  intros Hone Hk Hp. unfold rows_applied.
  assert (Hall : forall x, x ∈ filter (fun p => is_applied p = true)
                                 (map snd (map_to_list t)) -> x = p).
  { intros x Hx. apply list_elem_of_filter in Hx as [Hax Hx].
    apply list_elem_of_fmap in Hx as [[k' x'] [-> Hkx]].
    apply elem_of_map_to_list in Hkx. simpl in *.
    pose proof (Hone k' k x' p Hkx Hk Hax Hp) as ->. congruence. }
  assert (Hin : p ∈ filter (fun p => is_applied p = true) (map snd (map_to_list t))).
  { apply list_elem_of_filter. split; [exact Hp|].
    apply list_elem_of_fmap. exists (k, p). split; [reflexivity|].
    apply elem_of_map_to_list. exact Hk. }
  destruct (filter _ _) as [|x l] eqn:Hf.
  - inversion Hin.
  - simpl. rewrite (Hall x) by (left; reflexivity). reflexivity.
Qed.

Lemma rows_applied_none (t : Table) :
  (forall k p, t !! k = Some p -> is_applied p = false) -> rows_applied t = [].
Proof.
  intros Hnone. unfold rows_applied.
  destruct (filter _ _) as [|x l] eqn:Hf; [reflexivity|].
  assert (Hx : x ∈ filter (fun p => is_applied p = true) (map snd (map_to_list t)))
    by (rewrite Hf; left).
  apply list_elem_of_filter in Hx as [Hax Hx].
  apply list_elem_of_fmap in Hx as [[k' x'] [-> Hkx]].
  apply elem_of_map_to_list in Hkx. simpl in *.
  rewrite (Hnone k' x' Hkx) in Hax. discriminate.
Qed.

Section Save.
Variable json_from_str : string -> result Json.
Variable json_to_string_pretty : Json -> string.
Context {TValue : Type}.
Variable toml_from_str : string -> result (gmap string TValue).
Variable toml_to_string_pretty : gmap string TValue -> result string.

Let to_file := apply_config_to_file json_from_str json_to_string_pretty
                 toml_from_str toml_to_string_pretty.
Let save := save_codex_common_config json_from_str json_to_string_pretty
              toml_from_str toml_to_string_pretty.

Lemma apply_config_to_file_common id : preserves same_common (to_file id).
Proof.
  subst to_file.
  unfold apply_config_to_file, write_codex_config_files, db_take, db_call,
    fs_write, fs_create_dir, get_codex_config_dir, lift, now.
  repeat (frame_step || apply same_common_log || apply same_common_set_files).
Qed.

Lemma ignore_apply_keeps id env w :
  fst (ignore_err (to_file id) env w) = Ok tt /\
  w_store (snd (ignore_err (to_file id) env w)) = w_store w /\
  w_common (snd (ignore_err (to_file id) env w)) = w_common w.
Proof.
  pose proof (apply_config_to_file_store json_from_str json_to_string_pretty
                toml_from_str toml_to_string_pretty id env w) as Hs.
  pose proof (apply_config_to_file_common id env w) as Hc.
  subst to_file. unfold ignore_err.
  destruct (apply_config_to_file _ _ _ _ id env w) as [r w'].
  simpl in *. split; [reflexivity | split; assumption].
Qed.

(** [save_codex_common_config]: a non-blank text that does not parse as
    TOML is refused with "Invalid TOML" before any query, and nothing
    changes. Otherwise (a blank text is not parsed), when the delete and
    create queries succeed, the common-config record holds the text and
    the profile table is unchanged whatever the re-apply does; the command
    returns [Ok] unless the applied-profile query fails, whose error it
    returns although the new config is already stored. *)
Theorem save_codex_common_config_effects config env w :
  (forall e, is_blank config = false -> toml_from_str config = Err e ->
   save config env w = (Err ("Invalid TOML: " ++ e), w)) /\
  ((is_blank config = true \/ exists t, toml_from_str config = Ok t) ->
   (forall m, env_db env QDeleteCommon <> QErr m) ->
   (forall m, env_db env QCreateCommon <> QErr m) ->
   w_common (snd (save config env w)) = Some config /\
   w_store (snd (save config env w)) = w_store w /\
   ((forall m, env_db env QSelectApplied <> QErr m) -> fst (save config env w) = Ok tt) /\
   (forall m, env_db env QSelectApplied = QErr m ->
    fst (save config env w) = Err ("Failed to query applied provider: " ++ m))).
Proof.
  subst save. split.
  - intros e Hb He. unfold save_codex_common_config, bind, fail.
    rewrite Hb. simpl. rewrite He. reflexivity.
  - intros Hv Hd Hc.
    unfold save_codex_common_config, db_delete_common, db_create_common,
      set_common, db_take, db_call, bind, ret, fail, log, modify, get_env,
      get_world.
    destruct (is_blank config) eqn:Hb; simpl;
      [| destruct Hv as [Hv|[t Ht]]; [discriminate Hv | rewrite Ht]].
    all: destruct (env_db env QDeleteCommon) eqn:Ed;
      try (exfalso; eapply Hd; reflexivity).
    all: destruct (env_db env QCreateCommon) eqn:Ec;
      try (exfalso; eapply Hc; reflexivity).
    all: simpl; destruct (env_db env QSelectApplied) eqn:Es; simpl.
    all: try (destruct (rows_applied (w_store w)) as [|p rest]; simpl).
    all: repeat split; try reflexivity;
      try (intros m Hm; first [ discriminate Hm
                              | exfalso; eapply Hm; reflexivity
                              | injection Hm as <-; reflexivity ]);
      try (intros Hm; exfalso; eapply Hm; reflexivity).
    all: match goal with
         | |- context [ignore_err (apply_config_to_file ?a ?b ?c ?d ?i) ?e ?W] =>
             destruct (ignore_apply_keeps i e W) as [H1 [H2 H3]];
             subst to_file; simpl in H1, H2, H3
         end.
    all: first [ rewrite H3; reflexivity | rewrite H2; reflexivity
               | intros _; exact H1 ].
Qed.

(** Saving the common config re-applies the applied profile: with at most
    one applied profile [p], once the text is accepted and the three
    queries succeed, the command returns [Ok] and its final world is the
    one [apply_config_to_file p] leaves when run right after the new common
    record is stored (so config.toml is rebuilt from the new common
    config); with no applied profile no file is written. *)
Theorem save_codex_common_config_reapplies config env w :
  at_most_one_applied (w_store w) ->
  (is_blank config = true \/ exists t, toml_from_str config = Ok t) ->
  (forall m, env_db env QDeleteCommon <> QErr m) ->
  (forall m, env_db env QCreateCommon <> QErr m) ->
  env_db env QSelectApplied = QOk ->
  (forall k p, w_store w !! k = Some p -> is_applied p = true ->
   save config env w =
     (Ok tt, snd (to_file (provider_id p) env (saved_common_world config w)))) /\
  ((forall k p, w_store w !! k = Some p -> is_applied p = false) ->
   save config env w = (Ok tt, saved_common_world config w)).
Proof.
  intros Hone Hv Hd Hc Hs. subst save to_file.
  unfold save_codex_common_config, db_delete_common, db_create_common,
    set_common, db_take, db_call, bind, ret, fail, log, modify, get_env,
    get_world, saved_common_world.
  destruct (is_blank config) eqn:Hb; simpl;
    [| destruct Hv as [Hv|[t Ht]]; [discriminate Hv | rewrite Ht]].
  all: destruct (env_db env QDeleteCommon) eqn:Ed;
    try (exfalso; eapply Hd; reflexivity).
  all: destruct (env_db env QCreateCommon) eqn:Ec;
    try (exfalso; eapply Hc; reflexivity).
  all: simpl; rewrite Hs; simpl; rewrite <- !app_assoc; simpl.
  all: split; [intros k p Hk Hp; rewrite (rows_applied_one _ k p Hone Hk Hp);
               unfold ignore_err; simpl;
               destruct (apply_config_to_file _ _ _ _ _ _ _); reflexivity
              | intros Hnone; rewrite (rows_applied_none _ Hnone); reflexivity].
Qed.

End Save.

Lemma save_codex_common_config_reapplies_witness :
  let w := sample_world {["a" := sample_provider "a" true]} in
  at_most_one_applied (w_store w) /\
  (is_blank "" = true \/ exists t, toml_ok "" = Ok t) /\
  (forall m, env_db ok_env QDeleteCommon <> QErr m) /\
  (forall m, env_db ok_env QCreateCommon <> QErr m) /\
  env_db ok_env QSelectApplied = QOk /\
  ((forall k p, w_store w !! k = Some p -> is_applied p = true ->
    save_codex_common_config json_ok json_print toml_ok toml_print "" ok_env w =
      (Ok tt, snd (apply_config_to_file json_ok json_print toml_ok toml_print
                     (provider_id p) ok_env (saved_common_world "" w)))) /\
   ((forall k p, w_store w !! k = Some p -> is_applied p = false) ->
    save_codex_common_config json_ok json_print toml_ok toml_print "" ok_env w =
      (Ok tt, saved_common_world "" w))).
Proof.
  intros w.
  assert (Hone : at_most_one_applied (w_store w)).
  { intros k1 k2 p1 p2 H1 H2 _ _. simpl in H1, H2.
    apply lookup_singleton_Some in H1 as [<- _].
    apply lookup_singleton_Some in H2 as [<- _]. reflexivity. }
  assert (Hv : is_blank "" = true \/ exists t, toml_ok "" = Ok t) by (left; reflexivity).
  assert (Hd : forall m, env_db ok_env QDeleteCommon <> QErr m) by discriminate.
  assert (Hc : forall m, env_db ok_env QCreateCommon <> QErr m) by discriminate.
  assert (Hs : env_db ok_env QSelectApplied = QOk) by reflexivity.
  split; [exact Hone|]. split; [exact Hv|]. split; [exact Hd|].
  split; [exact Hc|]. split; [exact Hs|].
  exact (save_codex_common_config_reapplies json_ok json_print toml_ok toml_print
           "" ok_env w Hone Hv Hd Hc Hs).
Defined.

End CommonFacts.

(* ------------------------------------------------------------------ *)
(** ** What the file phase writes *)

Module FileFacts.
Import Frame ApplyFacts.

Lemma rows_by_id_cons id (t : Table) p rest :
  rows_by_id id t = p :: rest -> exists k, t !! k = Some p /\ provider_id p = id.
Proof.
  unfold rows_by_id.
  destruct (filter _ _) as [|x l] eqn:Hf; simpl; intros H; [discriminate|].
  injection H as -> _.
  assert (Hx : p ∈ filter (fun q => provider_id q = id) (map snd (map_to_list t)))
    by (rewrite Hf; left).
  apply list_elem_of_filter in Hx as [Hid Hx].
  apply list_elem_of_fmap in Hx as [[k q] [-> Hkq]].
  apply elem_of_map_to_list in Hkq. exists k. split; assumption.
Qed.

Section Write.
Variable json_to_string_pretty : Json -> string.

Let write := write_codex_config_files json_to_string_pretty.

Lemma write_codex_config_files_ok auth cfg env w home :
  env_home env = Some home -> fst (write auth cfg env w) = Ok tt ->
  w_dir (snd (write auth cfg env w)) = true /\
  w_files (snd (write auth cfg env w)) =
    <[path_join (path_join home ".codex") "config.toml" := cfg]>
      (<[path_join (path_join home ".codex") "auth.json" := json_to_string_pretty auth]>
         (w_files w)).
Proof.
  subst write.
  unfold write_codex_config_files, get_codex_config_dir, fs_create_dir, fs_write,
    get_env, get_world, log, modify, set_files, ret, fail, bind. simpl.
  intros Hh. rewrite Hh. simpl.
  destruct (w_dir w) eqn:Ed; simpl.
  2: destruct (env_fs_fail env FCreateDir); simpl; [discriminate|].
  all: destruct (env_fs_fail env FWriteAuth); simpl; try discriminate.
  all: destruct (env_fs_fail env FWriteConfig); simpl; try discriminate.
  all: intros _; split; [simpl; congruence | reflexivity].
Qed.


End Write.

Section Contents.
Variable json_from_str : string -> result Json.
Variable json_to_string_pretty : Json -> string.
Context {TValue : Type}.
Variable toml_from_str : string -> result (gmap string TValue).
Variable toml_to_string_pretty : gmap string TValue -> result string.

Let to_file := apply_config_to_file json_from_str json_to_string_pretty
                 toml_from_str toml_to_string_pretty.

(** [apply_config_to_file_public] succeeds only for a stored profile
    with that id whose settings parse; auth.json then holds its [auth]
    value (an empty object when absent) and config.toml its [config]
    string (empty when absent or not a string), layered under the common
    config when that record is read back with a non-blank config. *)
Theorem apply_config_to_file_contents id env w :
  fst (to_file id env w) = Ok tt ->
  exists k p cfg home toml,
    w_store w !! k = Some p /\ provider_id p = id /\
    json_from_str (settings_config p) = Ok cfg /\
    env_home env = Some home /\
    w_dir (snd (to_file id env w)) = true /\
    w_files (snd (to_file id env w)) =
      <[path_join (path_join home ".codex") "config.toml" := toml]>
        (<[path_join (path_join home ".codex") "auth.json" :=
             json_to_string_pretty (match json_get "auth" cfg with
                                    | Some a => a | None => JObject [] end)]>
           (w_files w)) /\
    (let base := match json_get "config" cfg with
                 | Some (JString s) => s | _ => "" end in
     match env_db env QSelectCommon, w_common w with
     | QOk, Some c =>
         if is_blank c then toml = base
         else merge_toml_configs toml_from_str toml_to_string_pretty c base = Ok toml
     | _, _ => toml = base
     end).
Proof.
  subst to_file.
  unfold apply_config_to_file, db_take, db_call, bind, ret, fail, log, modify,
    get_env, get_world, lift. simpl.
  destruct (env_db env QSelectById) eqn:E1; simpl; try discriminate.
  all: destruct (rows_by_id id (w_store w)) as [|p rest] eqn:Er; simpl;
    try discriminate.
  all: destruct (rows_by_id_cons id (w_store w) p rest Er) as [k [Hk Hid]].
  all: destruct (json_from_str (settings_config p)) as [cfg|e] eqn:Ej; simpl;
    try discriminate.
  all: destruct (env_db env QSelectCommon) eqn:E2; simpl; try discriminate.
  all: try (destruct (w_common w) as [c|] eqn:Ec; simpl).
  all: try (destruct (is_blank c) eqn:Eb; simpl).
  all: try (destruct (merge_toml_configs toml_from_str toml_to_string_pretty c _)
              as [merged|e] eqn:Em; simpl; [|discriminate]).
  all: intros H; destruct (env_home env) as [home|] eqn:Eh;
    [| exfalso; revert H; unfold write_codex_config_files, get_codex_config_dir,
         get_env, bind, fail; rewrite Eh; discriminate].
  all: destruct (write_codex_config_files_ok json_to_string_pretty _ _ env _ home Eh H)
         as [Hd Hf].
  all: eexists k, p, cfg, home, _; split; [exact Hk|]; split; [exact Hid|];
    split; [exact Ej|]; split; [first [exact Eh | reflexivity]|]; split; [exact Hd|];
    split; [simpl in Hf; exact Hf|]; simpl.
  all: first [ exact Em | reflexivity ].
Qed.

End Contents.

Lemma apply_config_to_file_contents_witness :
  let w := sample_world {["a" := sample_provider "a" true]} in
  let to_file := apply_config_to_file json_ok json_print toml_ok toml_print in
  fst (to_file "a" ok_env w) = Ok tt /\
  exists k p cfg home toml,
    w_store w !! k = Some p /\ provider_id p = "a" /\
    json_ok (settings_config p) = Ok cfg /\
    env_home ok_env = Some home /\
    w_dir (snd (to_file "a" ok_env w)) = true /\
    w_files (snd (to_file "a" ok_env w)) =
      <[path_join (path_join home ".codex") "config.toml" := toml]>
        (<[path_join (path_join home ".codex") "auth.json" :=
             json_print (match json_get "auth" cfg with
                         | Some a => a | None => JObject [] end)]>
           (w_files w)) /\
    (let base := match json_get "config" cfg with
                 | Some (JString s) => s | _ => "" end in
     match env_db ok_env QSelectCommon, w_common w with
     | QOk, Some c =>
         if is_blank c then toml = base
         else merge_toml_configs toml_ok toml_print c base = Ok toml
     | _, _ => toml = base
     end).
Proof.
  intros w to_file.
  assert (Ho : fst (to_file "a" ok_env w) = Ok tt) by (vm_compute; reflexivity).
  split; [exact Ho|].
  exact (apply_config_to_file_contents json_ok json_print toml_ok toml_print
           "a" ok_env w Ho).
Defined.

End FileFacts.

(* ------------------------------------------------------------------ *)
(** ** Paths outside the central directory, and [~] expansion *)

Module PathExtraFacts.
Import PathModel PathFacts HomePath.

(** [to_relative_central_path] on a path that is not below the central
    directory stores its file name alone, and resolving that name puts the
    file directly under the central directory (for a name without a
    backslash). *)
Theorem to_relative_outside_central (path_exists : PathBuf -> bool)
  (ps : string) (c : PathBuf) (n : string) :
  strip_prefix (path_of_string ps) c = None ->
  file_name (path_of_string ps) = Some n ->
  has_backslash n = false ->
  to_relative_central_path (path_of_string ps) c = n /\
  resolve_skill_central_path path_exists n c =
    {| pb_abs := pb_abs c; pb_comps := pb_comps c ++ [n] |}.
Proof.
  intros Hs Hf Hb. unfold to_relative_central_path. rewrite Hs, Hf.
  split; [reflexivity|].
  assert (Hn : seg_ok n).
  { unfold file_name in Hf.
    destruct (last (pb_comps (path_of_string ps))) as [n'|] eqn:Hl; [|discriminate].
    destruct (String.eqb n' "..") ; [discriminate|]. injection Hf as <-.
    apply last_Some_elem_of in Hl.
    pose proof (path_comps_ok ps) as Hok. rewrite Forall_forall in Hok.
    apply Hok. exact Hl. }
  assert (Hp : path_of_string n = {| pb_abs := false; pb_comps := [n] |})
    by (apply (path_of_concat [n]); constructor; [exact Hn | constructor]).
  assert (Ha : is_any_platform_absolute n = false).
  { apply (any_abs_concat_false [n]).
    - constructor; [exact Hn | constructor].
    - constructor; [exact Hb | constructor].
    - destruct n as [|a [|b [|]]]; reflexivity. }
  unfold resolve_skill_central_path. rewrite Hp, Ha. simpl.
  unfold join. rewrite Hp. reflexivity.
Qed.

Lemma to_relative_outside_central_witness :
  let c := path_of_string "/home/u/.skills" in
  strip_prefix (path_of_string "/tmp/x/skill.md") c = None /\
  file_name (path_of_string "/tmp/x/skill.md") = Some "skill.md" /\
  has_backslash "skill.md" = false /\
  to_relative_central_path (path_of_string "/tmp/x/skill.md") c = "skill.md" /\
  resolve_skill_central_path (fun _ => false) "skill.md" c =
    {| pb_abs := pb_abs c; pb_comps := pb_comps c ++ ["skill.md"] |}.
Proof.
  intros c.
  assert (Hs : strip_prefix (path_of_string "/tmp/x/skill.md") c = None)
    by (vm_compute; reflexivity).
  assert (Hf : file_name (path_of_string "/tmp/x/skill.md") = Some "skill.md")
    by (vm_compute; reflexivity).
  assert (Hb : has_backslash "skill.md" = false) by (vm_compute; reflexivity).
  split; [exact Hs|]. split; [exact Hf|]. split; [exact Hb|].
  exact (to_relative_outside_central (fun _ => false) "/tmp/x/skill.md" c
           "skill.md" Hs Hf Hb).
Defined.

Lemma list_ascii_of_string_app a b :
  list_ascii_of_string (a ++ b) = (list_ascii_of_string a ++ list_ascii_of_string b)%list.
Proof. induction a as [|c a IH]; simpl; [reflexivity | rewrite IH; reflexivity]. Qed.

(** The byte classes of the white-space characters. *)
Lemma is_ws_lt a : is_ws a = true -> nat_of_ascii a < 128.
Proof.
  unfold is_ws. generalize (nat_of_ascii a) as n. intros n H.
  do 33 (destruct n as [|n]; [lia|]). simpl in H. discriminate H.
Qed.

Lemma is_ws2_inv a b : is_ws2 a b = true ->
  nat_of_ascii a = 194 /\ 133 <= nat_of_ascii b <= 160.
Proof.
  unfold is_ws2. intros H.
  apply andb_prop in H as [Ha Hb]. apply Nat.eqb_eq in Ha.
  apply orb_prop in Hb as [Hb|Hb]; apply Nat.eqb_eq in Hb; lia.
Qed.

Lemma is_ws3_inv a b c : is_ws3 a b c = true ->
  225 <= nat_of_ascii a <= 227 /\ 128 <= nat_of_ascii b <= 154 /\
  nat_of_ascii b <> 133 /\ 128 <= nat_of_ascii c <= 175.
Proof.
  unfold is_ws3. intros H.
  repeat match goal with
         | H : _ || _ = true |- _ => apply orb_prop in H as [H|H]
         | H : _ && _ = true |- _ => apply andb_prop in H as [? H]
         | H : Nat.eqb _ _ = true |- _ => apply Nat.eqb_eq in H
         | H : Nat.leb _ _ = true |- _ => apply Nat.leb_le in H
         end; lia.
Qed.

Lemma not_ws a : ~ nat_of_ascii a < 128 -> is_ws a = false.
Proof. intros H. destruct (is_ws a) eqn:E; [apply is_ws_lt in E; lia | reflexivity]. Qed.

Lemma not_ws2 a b : (nat_of_ascii a <> 194 \/ ~ 133 <= nat_of_ascii b <= 160) ->
  is_ws2 a b = false.
Proof. intros H. destruct (is_ws2 a b) eqn:E; [apply is_ws2_inv in E; lia | reflexivity]. Qed.

Lemma not_ws3 a b c :
  (~ 225 <= nat_of_ascii a <= 227 \/ ~ 128 <= nat_of_ascii b <= 154 \/
   nat_of_ascii b = 133 \/ ~ 128 <= nat_of_ascii c <= 175) ->
  is_ws3 a b c = false.
Proof. intros H. destruct (is_ws3 a b c) eqn:E; [apply is_ws3_inv in E; lia | reflexivity]. Qed.

(** The first byte of a white-space character. *)
Lemma ws_seq_first b l : ws_seq (b :: l) ->
  nat_of_ascii b < 128 \/ nat_of_ascii b = 194 \/ 225 <= nat_of_ascii b <= 227.
Proof.
  inversion 1 as [|? ? Hw|? ? ? Hw|? ? ? ? Hw]; subst.
  - apply is_ws_lt in Hw. lia.
  - apply is_ws2_inv in Hw. lia.
  - apply is_ws3_inv in Hw. lia.
Qed.

Lemma ws_seq_app l1 l2 : ws_seq l1 -> ws_seq l2 -> ws_seq (l1 ++ l2)%list.
Proof.
  induction 1; intros H2; simpl;
    [exact H2 | apply ws_one | apply ws_two | apply ws_three]; auto.
Qed.

(** [trim_start] skips a run of white space. *)
Lemma trim_start_ws l m : ws_seq l -> trim_start_bytes (l ++ m)%list = trim_start_bytes m.
Proof.
  induction 1 as [|a l Hw _ IH|a b l Hw _ IH|a b c l Hw _ IH]; [reflexivity| | |].
  - simpl. rewrite Hw. exact IH.
  - pose proof (is_ws2_inv a b Hw). simpl.
    rewrite not_ws by lia. rewrite Hw. exact IH.
  - pose proof (is_ws3_inv a b c Hw). simpl.
    rewrite not_ws by lia. rewrite not_ws2 by lia. rewrite Hw. exact IH.
Qed.

Lemma trim_start_ws_nil l : ws_seq l -> trim_start_bytes l = [].
Proof. intros H. rewrite <- (app_nil_r l). rewrite trim_start_ws by exact H. reflexivity. Qed.

(** [trim_end] skips a run of white space at the end. *)
Lemma trim_end_ws l m : ws_seq l -> trim_end_rev (rev l ++ m)%list = trim_end_rev m.
Proof.
  intros H. revert m.
  induction H as [|a l Hw _ IH|a b l Hw _ IH|a b c l Hw _ IH]; intros m; [reflexivity| | |].
  - simpl. rewrite <- app_assoc. rewrite IH. simpl. rewrite Hw. reflexivity.
  - simpl. rewrite <- !app_assoc. rewrite IH. simpl.
    pose proof (is_ws2_inv a b Hw). rewrite not_ws by lia. rewrite Hw. reflexivity.
  - simpl. rewrite <- !app_assoc. rewrite IH. simpl.
    pose proof (is_ws3_inv a b c Hw).
    rewrite not_ws by lia. rewrite not_ws2 by lia. rewrite Hw. reflexivity.
Qed.

Lemma trim_start_nil_ws n l : length l <= n -> trim_start_bytes l = [] -> ws_seq l.
Proof.
  revert l. induction n as [|n IH]; intros l Hl H.
  - destruct l; [constructor | simpl in Hl; lia].
  - destruct l as [|a r]; [constructor|]. simpl in H, Hl.
    destruct (is_ws a) eqn:E1; [constructor; [exact E1 | apply IH; [lia | exact H]]|].
    destruct r as [|b r2]; [discriminate H|].
    destruct (is_ws2 a b) eqn:E2;
      [constructor; [exact E2 | apply IH; [simpl in Hl; lia | exact H]]|].
    destruct r2 as [|c r3]; [discriminate H|].
    destruct (is_ws3 a b c) eqn:E3; [|discriminate H].
    constructor; [exact E3 | apply IH; [simpl in Hl; lia | exact H]].
Qed.

Lemma trim_end_nil_ws n m : length m <= n -> trim_end_rev m = [] -> ws_seq (rev m).
Proof.
  revert m. induction n as [|n IH]; intros m Hm H.
  - destruct m; [constructor | simpl in Hm; lia].
  - destruct m as [|a r]; [constructor|]. simpl in H, Hm.
    destruct (is_ws a) eqn:E1.
    { simpl. apply ws_seq_app; [apply IH; [lia | exact H] | repeat constructor; exact E1]. }
    destruct r as [|b r2]; [discriminate H|].
    destruct (is_ws2 b a) eqn:E2.
    { simpl. rewrite <- app_assoc. simpl.
      apply ws_seq_app; [apply IH; [simpl in Hm; lia | exact H] | repeat constructor; exact E2]. }
    destruct r2 as [|c r3]; [discriminate H|].
    destruct (is_ws3 c b a) eqn:E3; [|discriminate H].
    simpl. rewrite <- !app_assoc. simpl.
    apply ws_seq_app; [apply IH; [simpl in Hm; lia | exact H] | repeat constructor; exact E3].
Qed.

Lemma trim_start_idem n l : length l <= n ->
  trim_start_bytes (trim_start_bytes l) = trim_start_bytes l.
Proof.
  revert l. induction n as [|n IH]; intros l Hl.
  - destruct l; [reflexivity | simpl in Hl; lia].
  - destruct l as [|a r]; [reflexivity|]. simpl in Hl.
    cbn [trim_start_bytes]. destruct (is_ws a) eqn:E1; [apply IH; lia|].
    destruct r as [|b r2]; [simpl; rewrite E1; reflexivity|].
    destruct (is_ws2 a b) eqn:E2; [apply IH; simpl in Hl; lia|].
    destruct r2 as [|c r3]; [simpl; rewrite E1, E2; reflexivity|].
    destruct (is_ws3 a b c) eqn:E3; [apply IH; simpl in Hl; lia|].
    simpl. rewrite E1, E2, E3. reflexivity.
Qed.

(** Text after a non-blank start: white space after it does not change
    where [trim_start] stops. *)
Lemma trim_start_app_stop n l m : length l <= n -> ws_seq m ->
  trim_start_bytes l <> [] ->
  trim_start_bytes (l ++ m)%list = (trim_start_bytes l ++ m)%list.
Proof.
  revert l. induction n as [|n IH]; intros l Hl Hm Hne.
  - destruct l; [contradiction | simpl in Hl; lia].
  - destruct l as [|a r]; [contradiction|]. simpl in Hl.
    assert (Hf : forall x xs, m = x :: xs ->
              nat_of_ascii x < 128 \/ nat_of_ascii x = 194 \/ 225 <= nat_of_ascii x <= 227)
      by (intros x xs ->; exact (ws_seq_first x xs Hm)).
    cbn [trim_start_bytes app] in *. destruct (is_ws a) eqn:E1; [apply IH; auto; lia|].
    destruct r as [|b r2].
    + simpl. destruct m as [|x xs]; [reflexivity|].
      specialize (Hf x xs eq_refl).
      rewrite not_ws2 by lia.
      destruct xs as [|c xs]; [reflexivity|]. rewrite not_ws3 by lia. reflexivity.
    + cbn [app]. destruct (is_ws2 a b) eqn:E2; [apply IH; auto; simpl in Hl; lia|].
      destruct r2 as [|c r3]; cbn [app].
      * simpl. destruct m as [|x xs]; [reflexivity|].
        rewrite not_ws3 by (specialize (Hf x xs eq_refl); lia). reflexivity.
      * destruct (is_ws3 a b c) eqn:E3; [apply IH; auto; simpl in Hl; lia|].
        reflexivity.
Qed.

Lemma string_of_list_ascii_nil l : string_of_list_ascii l = "" -> l = [].
Proof. destruct l; simpl; [reflexivity | discriminate]. Qed.

(** [s.trim().is_empty()] holds exactly for the strings made of
    white-space characters. *)
Lemma is_blank_ws_seq s : is_blank s = true <-> ws_seq (list_ascii_of_string s).
Proof.
  unfold is_blank, str_trim. rewrite String.eqb_eq. split.
  - intros H. apply string_of_list_ascii_nil in H.
    apply (f_equal (@rev ascii)) in H. rewrite rev_involutive in H. simpl in H.
    apply (trim_end_nil_ws _ _ (le_n _)) in H. rewrite rev_involutive in H.
    apply trim_start_ws_nil in H.
    rewrite (trim_start_idem _ _ (le_n _)) in H.
    exact (trim_start_nil_ws _ _ (le_n _) H).
  - intros H. rewrite (trim_start_ws_nil _ H). reflexivity.
Qed.

(** [trim] ignores white space added at either end. *)
Lemma trim_surround a s b :
  is_blank a = true -> is_blank b = true -> str_trim (a ++ s ++ b) = str_trim s.
Proof.
  rewrite !is_blank_ws_seq. intros Ha Hb. unfold str_trim.
  rewrite !list_ascii_of_string_app, trim_start_ws by exact Ha.
  destruct (trim_start_bytes (list_ascii_of_string s)) as [|x t] eqn:Hs.
  - apply (trim_start_nil_ws _ _ (le_n _)) in Hs.
    rewrite trim_start_ws by exact Hs. rewrite (trim_start_ws_nil _ Hb). reflexivity.
  - rewrite (trim_start_app_stop _ _ _ (le_n _) Hb) by (rewrite Hs; discriminate).
    rewrite Hs, rev_app_distr, trim_end_ws by exact Hb. reflexivity.
Qed.

Lemma trim_blank s : is_blank s = true -> str_trim s = "".
Proof. unfold is_blank. apply String.eqb_eq. Qed.

(** U+3000 and U+00A0 around a path are trimmed like ASCII blanks, and a
    lone U+00A0 is an empty storage path. *)
Lemma expand_home_path_unicode_blanks :
  expand_home_path None
    (String (ascii_of_nat 227) (String (ascii_of_nat 128) (String (ascii_of_nat 128)
       ("/srv/skills" ++ String (ascii_of_nat 194) (String (ascii_of_nat 160) EmptyString)))))
  = Ok (path_of_string "/srv/skills") /\
  expand_home_path None (String (ascii_of_nat 194) (String (ascii_of_nat 160) EmptyString))
  = Err "storage path is empty".
Proof. split; reflexivity. Qed.

(** [expand_home_path] ignores white space (any Unicode White_Space
    character) around its input, and refuses an input that is empty or
    only white space. *)
Theorem expand_home_path_trim (home : option PathBuf) (a s b : string) :
  (is_blank a = true -> is_blank b = true ->
   expand_home_path home (a ++ s ++ b) = expand_home_path home s) /\
  (is_blank s = true -> expand_home_path home s = Err "storage path is empty").
Proof.
  split.
  - intros Ha Hb. unfold expand_home_path. rewrite trim_surround by assumption.
    reflexivity.
  - intros Hs. unfold expand_home_path. rewrite trim_blank by exact Hs. reflexivity.
Qed.


End PathExtraFacts.

(* ------------------------------------------------------------------ *)
(** ** Deep merge and cleaning *)

Module AdapterFacts.
Import JsonMerge JsonFacts.


Lemma assoc_get_set k k' v m :
  assoc_get k (assoc_set k' v m) =
    if String.eqb k k'
    then match assoc_get k m with Some _ => Some v | None => None end
    else assoc_get k m.
Proof.
  induction m as [|[k0 v0] m IH]; simpl.
  - destruct (String.eqb k k'); reflexivity.
  - destruct (String.eqb_spec k' k0) as [->|Hne];
      destruct (String.eqb_spec k k0) as [->|Hk]; simpl;
      rewrite ?String.eqb_refl; try reflexivity.
    + apply String.eqb_neq in Hk. rewrite Hk. reflexivity.
    + assert (E : String.eqb k0 k' = false) by (apply String.eqb_neq; congruence).
      rewrite E. reflexivity.
    + apply String.eqb_neq in Hk. rewrite Hk. exact IH.
Qed.

Lemma assoc_get_app_one k m k' v :
  assoc_get k (m ++ [(k', v)])%list =
    match assoc_get k m with
    | Some x => Some x
    | None => if String.eqb k k' then Some v else None
    end.
Proof.
  induction m as [|[k0 v0] m IH]; simpl; [reflexivity|].
  destruct (String.eqb k k0); [reflexivity | exact IH].
Qed.

Lemma assoc_get_notin k m : ~ In k (map fst m) -> assoc_get k m = None.
Proof.
  induction m as [|[k0 v0] m IH]; simpl; [reflexivity|].
  intros H. destruct (String.eqb_spec k k0) as [->|_]; [exfalso; auto|].
  apply IH. auto.
Qed.

Lemma assoc_set_keys k v m : map fst (assoc_set k v m) = map fst m.
Proof.
  induction m as [|[k0 v0] m IH]; simpl; [reflexivity|].
  destruct (String.eqb k k0); simpl; [reflexivity | rewrite IH; reflexivity].
Qed.

Lemma assoc_get_keys k m :
  existsb (String.eqb k) (map fst m) = match assoc_get k m with Some _ => true | None => false end.
Proof.
  induction m as [|[k0 v0] m IH]; simpl; [reflexivity|].
  destruct (String.eqb k k0); [reflexivity | exact IH].
Qed.

(** One key of a merged mapping, read off the loop of [deep_merge_json]. *)
Lemma merge_entries_get dm b o k :
  NoDup (map fst o) ->
  assoc_get k (merge_entries dm b o) =
    match assoc_get k o with
    | Some ov =>
        match assoc_get k b with
        | Some bv => Some (if json_is_object bv && json_is_object ov
                           then dm bv ov else ov)
        | None => Some ov
        end
    | None => assoc_get k b
    end.
Proof.
  revert b. induction o as [|[k' v] o IH]; intros b Hnd; simpl; [reflexivity|].
  inversion Hnd as [|? ? Hnotin Hnd']; subst.
  rewrite (IH _ Hnd').
  destruct (String.eqb_spec k k') as [->|Hne].
  - rewrite (assoc_get_notin k' o (fun H => Hnotin (proj2 (list_elem_of_In _ _) H))).
    destruct (assoc_get k' b) as [bv|] eqn:Hb.
    + destruct (json_is_object bv && json_is_object v);
        rewrite assoc_get_set, String.eqb_refl, Hb; reflexivity.
    + rewrite assoc_get_app_one, Hb, String.eqb_refl. reflexivity.
  - assert (Hb' : assoc_get k (match assoc_get k' b with
                               | Some base_value =>
                                   if json_is_object base_value && json_is_object v
                                   then assoc_set k' (dm base_value v) b
                                   else assoc_set k' v b
                               | None => (b ++ [(k', v)])%list
                               end) = assoc_get k b).
    { apply String.eqb_neq in Hne.
      destruct (assoc_get k' b) as [bv|];
        [destruct (_ && _); rewrite assoc_get_set, Hne; reflexivity|].
      rewrite assoc_get_app_one, Hne. destruct (assoc_get k b); reflexivity. }
    rewrite Hb'. reflexivity.
Qed.

(** [deep_merge_json] of two mappings (with distinct overlay keys, as in
    any [serde_json] map), key by key: a key only in the base keeps its
    value; a key of the overlay takes the overlay's value, except that
    where both values are mappings they are merged recursively. *)
Theorem deep_merge_json_lookup bm om k :
  NoDup (map fst om) ->
  json_get k (deep_merge_json (JObject bm) (JObject om)) =
    match json_get k (JObject om), json_get k (JObject bm) with
    | Some ov, Some bv =>
        Some (if json_is_object bv && json_is_object ov
              then deep_merge_json bv ov else ov)
    | Some ov, None => Some ov
    | None, bv => bv
    end.
Proof.
  intros Hnd. simpl. rewrite merge_entries_get by exact Hnd.
  destruct (assoc_get k om), (assoc_get k bm); reflexivity.
Qed.

Lemma deep_merge_json_lookup_witness :
  let bm := [("a", JObject [("x", JNull)]); ("b", JBool true)] in
  let om := [("a", JObject [("y", JNumber 1)])] in
  NoDup (map fst om) /\
  json_get "a" (deep_merge_json (JObject bm) (JObject om)) =
    match json_get "a" (JObject om), json_get "a" (JObject bm) with
    | Some ov, Some bv =>
        Some (if json_is_object bv && json_is_object ov
              then deep_merge_json bv ov else ov)
    | Some ov, None => Some ov
    | None, bv => bv
    end.
Proof.
  intros bm om.
  assert (Hnd : NoDup (map fst om)).
  { constructor; [intros H; inversion H | constructor]. }
  split; [exact Hnd|].
  exact (deep_merge_json_lookup bm om "a" Hnd).
Defined.

Lemma merge_entries_keys dm b o :
  NoDup (map fst o) ->
  map fst (merge_entries dm b o) =
    (map fst b ++ List.filter (fun k => negb (existsb (String.eqb k) (map fst b)))
                              (map fst o))%list.
Proof.
  revert b. induction o as [|[k v] o IH]; intros b Hnd; simpl;
    [rewrite app_nil_r; reflexivity|].
  inversion Hnd as [|? ? Hnotin Hnd']; subst.
  rewrite (IH _ Hnd'). rewrite assoc_get_keys.
  destruct (assoc_get k b) as [bv|] eqn:Hb; simpl.
  - destruct (_ && _); rewrite assoc_set_keys; reflexivity.
  - rewrite map_app, <- app_assoc. simpl. f_equal. f_equal.
    apply filter_ext_in. intros k' Hk'.
    rewrite existsb_app. simpl.
    destruct (String.eqb_spec k' k) as [->|_];
      [exfalso; apply Hnotin; apply list_elem_of_In; exact Hk'|].
    rewrite orb_false_r. reflexivity.
Qed.

Lemma Forall_assoc_get (P : Json -> Prop) m k v :
  Forall (fun kv => P kv.2) m -> assoc_get k m = Some v -> P v.
Proof.
  induction 1 as [|[k0 v0] m H0 _ IH]; simpl; [discriminate|].
  destruct (String.eqb k k0); [intros E; injection E as <-; exact H0 | exact IH].
Qed.

Lemma Forall_assoc_set (P : Json -> Prop) m k v :
  Forall (fun kv => P kv.2) m -> P v -> Forall (fun kv => P kv.2) (assoc_set k v m).
Proof.
  intros Hm Hv. induction Hm as [|[k0 v0] m H0 Hm IH]; simpl; [constructor|].
  destruct (String.eqb k k0); constructor; assumption.
Qed.

Lemma merge_entries_wf_vals dm b o :
  Forall (fun kv => json_wf kv.2) b ->
  Forall (fun kv => json_wf kv.2) o ->
  Forall (fun kv => forall bv, json_wf bv -> json_wf (dm bv kv.2)) o ->
  Forall (fun kv => json_wf kv.2) (merge_entries dm b o).
Proof.
  revert b. induction o as [|[k v] o IH]; intros b Hb Ho Hdm; simpl; [exact Hb|].
  inversion Ho as [|? ? Hv Ho']; subst. inversion Hdm as [|? ? Hd Hdm']; subst.
  apply IH; [|assumption|assumption].
  destruct (assoc_get k b) as [bv|] eqn:Hg.
  - destruct (_ && _); apply Forall_assoc_set; try assumption.
    apply Hd. exact (Forall_assoc_get json_wf b k bv Hb Hg).
  - apply Forall_app. split; [exact Hb | constructor; [exact Hv | constructor]].
Qed.

Lemma json_wf_object_inv m :
  json_wf (JObject m) -> NoDup (map fst m) /\ Forall (fun kv => json_wf kv.2) m.
Proof. intros H. inversion H; subst. split; assumption. Qed.

Lemma deep_merge_json_wf o : forall b, json_wf b -> json_wf o -> json_wf (deep_merge_json b o).
Proof.
  induction o as [| | | |l _|om IH] using json_nested_ind; intros base Hb Ho;
    try (destruct base; exact Hb).
  destruct base as [| | | | |bm]; try exact Hb. simpl.
  apply json_wf_object_inv in Hb as [Hbk Hbv].
  apply json_wf_object_inv in Ho as [Hok Hov].
  constructor.
  - rewrite merge_entries_keys by exact Hok.
    apply NoDup_app. split; [exact Hbk|]. split.
    + intros k Hk Hin. apply list_elem_of_In in Hin.
      apply filter_In in Hin as [_ Hn].
      apply list_elem_of_In in Hk.
      assert (Hex : existsb (String.eqb k) (map fst bm) = true).
      { apply existsb_exists. exists k. split; [exact Hk | apply String.eqb_refl]. }
      rewrite Hex in Hn. discriminate.
    + apply NoDup_ListNoDup, List.NoDup_filter, NoDup_ListNoDup. exact Hok.
  - apply merge_entries_wf_vals; [exact Hbv | exact Hov|].
    rewrite Forall_forall in IH, Hov |- *. intros kv Hin bv Hbv'.
    exact (IH kv Hin bv Hbv' (Hov kv Hin)).
Qed.

(** [deep_merge_json] keeps values well formed (distinct keys in every
    mapping), and the keys of a merged mapping are exactly the keys of
    the base and of the overlay. *)
Theorem deep_merge_json_keys bm om :
  json_wf (JObject bm) -> json_wf (JObject om) ->
  json_wf (deep_merge_json (JObject bm) (JObject om)) /\
  forall k, In k (map fst (json_entries (deep_merge_json (JObject bm) (JObject om)))) <->
            In k (map fst bm) \/ In k (map fst om).
Proof.
  intros Hb Ho. split; [apply deep_merge_json_wf; assumption|].
  intros k. simpl. rewrite merge_entries_keys.
  2: { apply json_wf_object_inv in Ho as [Hk _]. exact Hk. }
  rewrite in_app_iff, filter_In. split.
  - intros [H|[H _]]; [left | right]; exact H.
  - intros [H|H]; [left; exact H|].
    destruct (existsb (String.eqb k) (map fst bm)) eqn:E.
    + left. apply existsb_exists in E as [k' [Hk' Hkk']].
      apply String.eqb_eq in Hkk'. subst k'. exact Hk'.
    + right. split; [exact H | reflexivity].
Qed.

Lemma deep_merge_json_keys_witness :
  let bm := [("a", JNull); ("b", JBool true)] in
  let om := [("c", JNumber 1); ("a", JString "s")] in
  json_wf (JObject bm) /\ json_wf (JObject om) /\
  json_wf (deep_merge_json (JObject bm) (JObject om)) /\
  forall k, In k (map fst (json_entries (deep_merge_json (JObject bm) (JObject om)))) <->
            In k (map fst bm) \/ In k (map fst om).
Proof.
  intros bm om.
  assert (Hb : json_wf (JObject bm)).
  { constructor; [|repeat constructor].
    constructor; [|constructor; [intros H; inversion H | constructor]].
    intros H. apply list_elem_of_In in H. simpl in H.
    destruct H as [H|H]; [discriminate H | exact H]. }
  assert (Ho : json_wf (JObject om)).
  { constructor; [|repeat constructor].
    constructor; [|constructor; [intros H; inversion H | constructor]].
    intros H. apply list_elem_of_In in H. simpl in H.
    destruct H as [H|H]; [discriminate H | exact H]. }
  split; [exact Hb|]. split; [exact Ho|].
  exact (deep_merge_json_keys bm om Hb Ho).
Defined.

Lemma retain_entries_id m :
  Forall (fun kv => pruned kv.2 -> clean_empty_values kv.2 = kv.2) m ->
  pruned_entries pruned m -> retain_entries clean_empty_values m = m.
Proof.
  induction 1 as [|[k v] m Hv _ IH]; simpl; [reflexivity|].
  intros [[Hn [He Hp]] Hm]. simpl in Hv. rewrite (Hv Hp).
  destruct v as [| | | | |[|kv m0]]; simpl; try (rewrite (IH Hm); reflexivity);
    contradiction.
Qed.

Lemma clean_pruned_id x : pruned x -> clean_empty_values x = x.
Proof.
  induction x as [| | | |l _|m IH] using json_nested_ind; try reflexivity.
  intros Hp. simpl. f_equal. apply retain_entries_id; assumption.
Qed.

(** [clean_empty_values] is idempotent: the values it leaves unchanged
    are exactly those with no null and no empty mapping in any mapping
    reachable through mappings, and every cleaned value is one of them. *)
Theorem clean_empty_values_idempotent x :
  clean_empty_values (clean_empty_values x) = clean_empty_values x /\
  (clean_empty_values x = x <-> pruned x).
Proof.
  split; [apply clean_pruned_id, clean_empty_values_pruned|].
  split; [intros H; rewrite <- H; apply clean_empty_values_pruned|].
  apply clean_pruned_id.
Qed.

End AdapterFacts.
